(** * Opinion-dynamics notebooks of the NAEC workshop: a shallow embedding

    The repository holds two notebooks:
    - [Workshop-March-6/RFIM.ipynb]: class [RFIM] (random-field Ising model);
    - [Workshop-March-6/Marsili-Curty-model.ipynb]: class [MarsiliCurty] and
      the function [fixed_point].

    Conventions of the embedding.
    - Python floats are idealised as exact rationals ([Q], compared with
      [==]); the three special results numpy can produce from a division by
      zero are kept apart in [xfloat].
    - The opinion arrays hold the numbers -1, 0, 1 only, so they are lists
      of [Z].
    - The random generator is an explicit argument: every method that draws
      takes the raw draws it consumes.
    - An exception is a [Raise] result; a loop without a bound takes fuel. *)

From Stdlib Require Import ZArith QArith Qabs List Bool Lia Lqa Psatz.
From Stdlib Require Import Setoid Morphisms.
Import ListNotations.

(** ** Python and numpy primitives *)

(** The two exceptions the notebooks can meet, and [OutsideModel]: not an
    exception, but the mark of a run that goes on in Python with a value
    the model does not represent. *)
Inductive exn : Type := IndexError | ValueError | OutsideModel.

Inductive result (A : Type) : Type :=
| Ok (a : A)
| Raise (e : exn).
Arguments Ok {A} a.
Arguments Raise {A} e.

Definition bind {A B : Type} (r : result A) (k : A -> result B) : result B :=
  match r with
  | Ok a => k a
  | Raise e => Raise e
  end.

Notation "x <- r ;; k" := (bind r (fun x => k))
  (at level 61, r at next level, right associativity).
Notation "' pat <- r ;; k" := (bind r (fun pat => k))
  (at level 61, pat pattern, r at next level, right associativity).

(** A float as numpy sees it: a finite number, an infinity, or nan. *)
Inductive xfloat : Type :=
| Fin (q : Q)
| Inf (positive : bool)
| NaN.

(** [a / b] on numpy integers: true division, with [inf] and [nan] (and a
    warning, not an exception) when [b] is zero. *)
Definition np_div (a b : Z) : xfloat :=
  if (b =? 0)%Z then
    if (a =? 0)%Z then NaN else Inf (0 <? a)%Z
  else Fin (inject_Z a / inject_Z b).

(** [j * x] for a finite [j]. *)
Definition xmul (j : Q) (x : xfloat) : xfloat :=
  match x with
  | Fin q => Fin (j * q)
  | Inf s =>
      match (Qnum j ?= 0)%Z with
      | Eq => NaN
      | Gt => Inf s
      | Lt => Inf (negb s)
      end
  | NaN => NaN
  end.

(** [a + x] for a finite [a]. *)
Definition xadd (a : Q) (x : xfloat) : xfloat :=
  match x with
  | Fin q => Fin (a + q)
  | Inf s => Inf s
  | NaN => NaN
  end.

(** [np.sign] on a finite number. *)
Definition Qsign (q : Q) : Z := Z.sgn (Qnum q).

(** [np.sign]: -1, 0 or 1, and nan (here [None]) on nan. *)
Definition np_sign (x : xfloat) : option Z :=
  match x with
  | Fin q => Some (Qsign q)
  | Inf s => Some (if s then 1 else -1)%Z
  | NaN => None
  end.

(** [range(a, b)] *)
Definition range (a b : nat) : list nat := seq a (b - a).

(** [arr.sum()] on an integer-valued array *)
Definition np_sum (l : list Z) : Z := fold_right Z.add 0%Z l.

(** [np.sum] on floats *)
Definition np_sumQ (l : list Q) : Q := fold_right Qplus 0 l.

(** [arr[i] = v] for [i] inside the array *)
Fixpoint set_item (l : list Z) (i : nat) (v : Z) : list Z :=
  match l, i with
  | [], _ => []
  | _ :: t, O => v :: t
  | x :: t, S i' => x :: set_item t i' v
  end.

(** [np.random.choice([-1,1], size = n)]: one of the two values per draw *)
Definition choice_pm (draw : nat -> bool) (n : nat) : list Z :=
  map (fun k => if draw k then 1%Z else (-1)%Z) (seq 0 n).

(** ** RFIM.ipynb: class RFIM *)

Module RFIM.

Record t : Type := mk {
  J : Q;
  F : Q;
  N : nat;
  S : list Z;
  h : list Q;
  delta : Q
}.

Definition with_S (st : t) (s : list Z) : t :=
  mk (J st) (F st) (N st) s (h st) (delta st).

Definition with_F (st : t) (f : Q) : t :=
  mk (J st) f (N st) (S st) (h st) (delta st).

(** [__init__]: [draw_S] and [draw_h] are what the generator returns for
    the opinions and for the Laplace fields; a negative scale is refused by
    numpy and a zero scale gives zeros. *)
Definition init (J F : Q) (N : nat) (delta : Q)
    (draw_S : nat -> bool) (draw_h : nat -> Q) : result t :=
  if Qle_bool 0 delta then
    Ok (mk J F N (choice_pm draw_S N)
          (map (fun k => if Qeq_bool delta 0 then 0 else draw_h k) (seq 0 N))
          delta)
  else Raise ValueError.

(** [m]: average opinion; nan on an empty array *)
Definition m (st : t) : xfloat :=
  np_div (np_sum (S st)) (Z.of_nat (length (S st))).

(** [p]: the local polarization field of agent [i] *)
Definition p (st : t) (i : nat) : result xfloat :=
  match nth_error (S st) i with
  | None => Raise IndexError
  | Some s =>
      let local_m := np_div (np_sum (S st) - s) (Z.of_nat (N st) - 1) in
      match nth_error (h st) i with
      | None => Raise IndexError
      | Some hi => Ok (xadd (hi + F st) (xmul (J st) local_m))
      end
  end.

(** [flip]: returns the new state and 1 if agent [i] changed opinion, the
    state as it was and 0 otherwise. A nan product is not equal to -1. *)
Definition flip (st : t) (i : nat) : result (t * nat) :=
  match nth_error (S st) i with
  | None => Raise IndexError
  | Some s =>
      x <- p st i ;;
      let should_flip := option_map (Z.mul s) (np_sign x) in
      match should_flip with
      | Some (-1)%Z => Ok (with_S st (set_item (S st) i (s * -1)%Z), 1%nat)
      | _ => Ok (st, 0%nat)
      end
  end.

(** The body of [sweep]'s loop over the indices [idx], with the running
    count [s]. *)
Fixpoint sweep_loop (idx : list nat) (st : t) (s : nat) : result (t * nat) :=
  match idx with
  | [] => Ok (st, s)
  | i :: rest =>
      '(st', r) <- flip st i ;;
      sweep_loop rest st' (s + r)
  end.

(** [sweep]: the loop is [for i in range(N)], and [N] there is not
    [self.N] but the notebook's module-level variable [N]; it is the
    argument [N_global]. *)
Definition sweep (N_global : nat) (st : t) : result (t * nat) :=
  sweep_loop (range 0 N_global) st 0.

(** [equilibrate]: sweep until a sweep flips nobody. The while loop has no
    bound; [fuel] counts the sweeps allowed and [None] is "out of fuel". *)
Fixpoint equilibrate (N_global : nat) (fuel : nat) (st : t)
  : option (result t) :=
  match fuel with
  | O => None
  | Datatypes.S fuel' =>
      match sweep N_global st with
      | Raise e => Some (Raise e)
      | Ok (st', flips) =>
          if (0 <? flips)%nat then equilibrate N_global fuel' st'
          else Some (Ok st')
      end
  end.

End RFIM.

(** ** Marsili-Curty-model.ipynb: class MarsiliCurty *)

(** [int(x)]: truncation towards zero *)
Definition int_of (x : Q) : Z := Z.quot (Qnum x) (Zpos (Qden x)).

(** [np.random.choice([-1,1], p = [1-p,p], size = n)]: a value of
    probability zero is never drawn. *)
Definition choice_p (p : Q) (draw : nat -> bool) (n : nat) : list Z :=
  map (fun k =>
         if Qeq_bool p 1 then 1%Z
         else if Qeq_bool p 0 then (-1)%Z
         else if draw k then 1%Z else (-1)%Z) (seq 0 n).

(** [arr > 0] followed by a count of the [True] entries *)
Definition count_pos (l : list Z) : nat :=
  length (filter (fun s => (0 <? s)%Z) l).

(** [np.mean(arr > 0)] *)
Definition mean_pos (l : list Z) : xfloat :=
  np_div (Z.of_nat (count_pos l)) (Z.of_nat (length l)).

(** [arr[group]]: fancy indexing, an index out of range raises *)
Fixpoint take (l : list Z) (group : list nat) : result (list Z) :=
  match group with
  | [] => Ok []
  | g :: rest =>
      match nth_error l g with
      | None => Raise IndexError
      | Some s => ss <- take l rest ;; Ok (s :: ss)
      end
  end.

Module MarsiliCurty.

Record t : Type := mk {
  N_i : nat;
  N_f : nat;
  N : nat;
  p : Q;
  m : nat;
  S : list Z
}.

Definition with_S (st : t) (s : list Z) : t :=
  mk (N_i st) (N_f st) (N st) (p st) (m st) s.

(** [__init__]: numpy refuses a negative size, an assignment of [N_i]
    values to a shorter slice, and probabilities outside [0,1]; an instance
    that exists therefore has [0 <= N_i <= N], which is why the counts are
    naturals here. *)
Definition init (N : nat) (z p : Q) (m : nat)
    (draw_informed draw_followers : nat -> bool) : result t :=
  let n_i := int_of (inject_Z (Z.of_nat N) * z) in
  if (n_i <? 0)%Z || (Z.of_nat N <? n_i)%Z then Raise ValueError
  else if negb (Qle_bool 0 p && Qle_bool p 1) then Raise ValueError
  else
    let N_i := Z.to_nat n_i in
    let N_f := (N - N_i)%nat in
    Ok (mk N_i N_f N p m
          (choice_p p draw_informed N_i ++ choice_pm draw_followers N_f)).

(** [compute_q] *)
Definition compute_q (st : t) : xfloat :=
  let followers := skipn (N_i st) (S st) in
  mean_pos followers.

(** [compute_pi] *)
Definition compute_pi (st : t) : xfloat :=
  mean_pos (S st).

(** [compute_informed] *)
Definition compute_informed (st : t) : xfloat :=
  let informed := firstn (N_i st) (S st) in
  mean_pos informed.

(** [time_step]. [r_follower] and [r_group] are the generator's raw
    draws: [randint(low, high)] is [low + r mod (high - low)] and raises
    when the range is empty, [choice(N, size = m)] is [r_group k mod N] for
    [k < m]. With [m = 0] the mean is nan and numpy stores nan in [S]; the
    model has no nan opinion and stops there with [OutsideModel]. *)
Definition time_step (st : t) (r_follower : nat) (r_group : nat -> nat)
  : result t :=
  if (N st <=? N_i st)%nat then Raise ValueError
  else
    let random_follower :=
      (N_i st + r_follower mod (N st - N_i st))%nat in
    let group := map (fun k => (r_group k mod N st)%nat) (seq 0 (m st)) in
    group_choices <- take (S st) group ;;
    let avg_group_choice :=
      np_div (np_sum group_choices) (Z.of_nat (length group_choices)) in
    match np_sign avg_group_choice with
    | None => Raise OutsideModel
    | Some sg =>
        if (random_follower <? length (S st))%nat
        then Ok (with_S st (set_item (S st) random_follower sg))
        else Raise IndexError
    end.

(** The states a driver can see: a constructed instance, then any number
    of calls of [time_step]. *)
Inductive reachable (N0 : nat) (z p0 : Q) (m0 : nat) : t -> Prop :=
| reach_init : forall di df st,
    init N0 z p0 m0 di df = Ok st -> reachable N0 z p0 m0 st
| reach_step : forall st rf rg st',
    reachable N0 z p0 m0 st ->
    time_step st rf rg = Ok st' ->
    reachable N0 z p0 m0 st'.

(** The [for] loop of [iterate] over the times [ts]: [q[t]] and [pi[t]]
    are written before the step of time [t]. The arrays are filled in the
    order of the times, which is how the lists [q] and [pi] grow;
    [draws t] holds the raw draws of the step of time [t]. *)
Fixpoint iterate_loop (ts : list nat) (draws : nat -> nat * (nat -> nat))
    (st : t) (q pi : list xfloat)
  : result (t * (list xfloat * list xfloat)) :=
  match ts with
  | [] => Ok (st, (q, pi))
  | t0 :: rest =>
      let q' := q ++ [compute_q st] in
      let pi' := pi ++ [compute_pi st] in
      st' <- time_step st (fst (draws t0)) (snd (draws t0)) ;;
      iterate_loop rest draws st' q' pi'
  end.

(** [iterate]: returns the state it leaves together with the two traces
    the method returns. *)
Definition iterate (st : t) (T : nat) (draws : nat -> nat * (nat -> nat))
  : result (t * (list xfloat * list xfloat)) :=
  iterate_loop (range 0 T) draws st [] [].

End MarsiliCurty.

(** ** Marsili-Curty-model.ipynb: fixed_point *)

(** [scipy.special.binom] at natural arguments: the binomial coefficient *)
Fixpoint binom (n k : nat) : nat :=
  match n, k with
  | _, O => 1
  | O, S _ => 0
  | S n', S k' => binom n' k' + binom n' k
  end.

(** [x ** n] *)
Fixpoint pow (x : Q) (n : nat) : Q :=
  match n with
  | O => 1
  | S n' => x * pow x n'
  end.

(** The inner function [F_z] of [fixed_point], with the variables [z], [p]
    and [m] it closes over. *)
Definition F_z (z p : Q) (m : nat) (q : Q) : Q :=
  let pi := z * p + (1 - z) * q in
  np_sumQ (map (fun l => inject_Z (Z.of_nat (binom m l)) * pow pi l
                         * pow (1 - pi) (m - l))
               (range ((m + 1) / 2) (m + 1))).

(** The [for] loop of [fixed_point] *)
Fixpoint fixed_point_loop (f : Q -> Q) (n_its : nat) (q_0 q_1 : Q) : Q * Q :=
  match n_its with
  | O => (q_0, q_1)
  | S n => fixed_point_loop f n (f q_0) (f q_1)
  end.

Section FixedPoint.

(** [scipy.optimize.brentq f a b]: an external root finder. *)
Variable brentq : (Q -> Q) -> Q -> Q -> result Q.

Definition fixed_point (z p : Q) (m n_its : nat) : result (Q * Q * Q) :=
  let '(q_0, q_1) := fixed_point_loop (F_z z p m) n_its 0 1 in
  q_mid <- brentq (fun q => F_z z p m q - q)
                  (q_0 + (1 # 10)) (q_1 - (1 # 10)) ;;
  Ok (q_0, q_1, q_mid).

End FixedPoint.

(** ** Auxiliary definitions for the statements *)

(** A two-agent instance in which agent 0 has a local field of exactly
    zero: [h[0] + F + J * S[1] = -1 + 0 + 1]. *)
Definition rfim_zero_field : RFIM.t :=
  RFIM.mk 1 0 2 [1; 1]%Z [-(1); 0] 1.

(** The sweep the documentation describes ("goes through all N agents"):
    one [flip] per agent of the instance, in the order 0, ..., [self.N]-1,
    each on the state the previous one left. *)
Definition sweep_all_agents (st : RFIM.t) : result (RFIM.t * nat) :=
  RFIM.sweep_loop (range 0 (RFIM.N st)) st 0.

(** An instance of three agents, the last of which wants to flip, in a
    notebook whose module-level [N] is 2. *)
Definition rfim_three : RFIM.t :=
  RFIM.mk 0 0 3 [1; 1; 1]%Z [5; 5; -(5)] 1.

(** [sum_i (h[i] + F) * S[i]] *)
Fixpoint field_sum (F : Q) (h : list Q) (s : list Z) : Q :=
  match h, s with
  | hi :: h', si :: s' => (hi + F) * inject_Z si + field_sum F h' s'
  | _, _ => 0
  end.

(** The energy that every flip lowers: with [T = sum_i S[i]],
    [- sum_i (h[i] + F) * S[i] - J / (N - 1) / 2 * T^2]. *)
Definition energy (st : RFIM.t) : Q :=
  - field_sum (RFIM.F st) (RFIM.h st) (RFIM.S st)
  - RFIM.J st / inject_Z (Z.of_nat (RFIM.N st) - 1) / 2
    * (inject_Z (np_sum (RFIM.S st)) * inject_Z (np_sum (RFIM.S st))).

(** Two opinion arrays that differ by flips only *)
Definition same_up_to_sign (a b : list Z) : Prop :=
  Forall2 (fun x y => x = y \/ x = (- y)%Z) a b.

(** All the arrays that flips can make of [l] *)
Fixpoint variants (l : list Z) : list (list Z) :=
  match l with
  | [] => [[]]
  | x :: t => map (cons x) (variants t) ++ map (cons (- x)%Z) (variants t)
  end.

Definition Qltb (a b : Q) : bool := negb (Qle_bool b a).

(** How many arrays of [univ] have an energy below that of [s] *)
Definition rank (E : list Z -> Q) (univ : list (list Z)) (s : list Z) : nat :=
  length (filter (fun s' => Qltb (E s') (E s)) univ).

(** The energy of the instance [st] with its opinions replaced by [s] *)
Definition energy_of (st : RFIM.t) (s : list Z) : Q :=
  energy (RFIM.with_S st s).

(** An opinion: +1 or -1 *)
Definition is_opinion (s : Z) : Prop := s = 1%Z \/ s = (-1)%Z.

(** What [RFIM.__init__] establishes: [S] and [h] have [N] entries and
    every opinion is +1 or -1. *)
Definition rfim_well_formed (st : RFIM.t) : Prop :=
  length (RFIM.S st) = RFIM.N st /\
  length (RFIM.h st) = RFIM.N st /\
  Forall is_opinion (RFIM.S st).

(** The decoupled limit as the specification words it: with [J = 0], in
    the state [equilibrate] returns, the opinion of every agent [i] is
    [sign(h[i] + F)]. *)
Definition decoupled_limit_as_stated (N_global : nat) (st : RFIM.t) : Prop :=
  RFIM.J st == 0 ->
  forall fuel st',
    RFIM.equilibrate N_global fuel st = Some (Ok st') ->
    forall i hi,
      nth_error (RFIM.h st) i = Some hi ->
      nth_error (RFIM.S st') i = Some (Qsign (hi + RFIM.F st)).

(** Two uncoupled agents; the field on agent 0 is exactly zero
    ([h[0] + F = 1/2 - 1/2]) and agent 1 is pushed down. *)
Definition rfim_tie : RFIM.t :=
  RFIM.mk 0 (-(1#2)) 2 [1; 1]%Z [1#2; -(1#2)] 1.

(** A call sequence [time_step(); ...; time_step()], one pair of raw draws
    per call *)
Fixpoint time_steps (st : MarsiliCurty.t) (draws : list (nat * (nat -> nat)))
  : result MarsiliCurty.t :=
  match draws with
  | [] => Ok st
  | (r_follower, r_group) :: rest =>
      st' <- MarsiliCurty.time_step st r_follower r_group ;;
      time_steps st' rest
  end.

(** A value [np.sign] can return: -1, 0 or 1 *)
Definition is_sign (s : Z) : Prop := s = (-1)%Z \/ s = 0%Z \/ s = 1%Z.

(** The parameters the specification calls valid *)
Definition valid_parameters (N : nat) (z p : Q) (m : nat) : Prop :=
  (1 <= N)%nat /\ 0 <= z <= 1 /\ 0 < p < 1 /\ (1 <= m)%nat.


(** "A value in [0,1]" *)
Definition in_unit_interval (x : xfloat) : Prop :=
  match x with
  | Fin q => 0 <= q <= 1
  | _ => False
  end.


(** [MarsiliCurty(N = 2, z = 0, p = 1/2, m = 2)] with the followers drawn
    as +1 and -1 *)
Definition mc_tie : MarsiliCurty.t :=
  MarsiliCurty.mk 0 2 2 (1 # 2) 2 [1; -1]%Z.


(** [MarsiliCurty(N = 3, z = 1/3, p = 1/2, m = 3)] *)
Definition mc_three : MarsiliCurty.t :=
  MarsiliCurty.mk 1 2 3 (1 # 2) 3 [1; -1; -1]%Z.

(** "ceil(m/2)": half of [m], rounded up *)
Definition ceil_half (m : nat) : nat := (m / 2 + m mod 2)%nat.

(** [C(m,l) * x^l * (1-x)^(m-l)] *)
Definition binomial_term (m l : nat) (x : Q) : Q :=
  inject_Z (Z.of_nat (binom m l)) * pow x l * pow (1 - x) (m - l).

(** "The sum over l from k to m of C(m,l) * x^l * (1-x)^(m-l)" *)
Definition binomial_tail (m k : nat) (x : Q) : Q :=
  np_sumQ (map (fun l => binomial_term m l x) (range k (m + 1))).

(** The outcomes of [m] draws: every list of [m] booleans *)
Fixpoint outcomes (m : nat) : list (list bool) :=
  match m with
  | O => [[]]
  | S m' => map (cons true) (outcomes m') ++ map (cons false) (outcomes m')
  end.

(** The probability of one outcome of independent Bernoulli([x]) draws *)
Fixpoint weight (x : Q) (o : list bool) : Q :=
  match o with
  | [] => 1
  | b :: o' => (if b then x else 1 - x) * weight x o'
  end.

(** The number of positive draws of an outcome *)
Fixpoint successes (o : list bool) : nat :=
  match o with
  | [] => 0
  | b :: o' => (if b then 1 else 0) + successes o'
  end.

(** "The probability that at least [k] of [m] independent Bernoulli([x])
    draws are positive" *)
Definition prob_at_least (m k : nat) (x : Q) : Q :=
  np_sumQ (map (weight x)
               (filter (fun o => (k <=? successes o)%nat) (outcomes m))).

(** The same probability by conditioning on the first draw *)
Fixpoint at_least_rec (m k : nat) (x : Q) : Q :=
  match m with
  | O => match k with O => 1 | S _ => 0 end
  | S m' =>
      match k with
      | O => x * at_least_rec m' 0 x + (1 - x) * at_least_rec m' 0 x
      | S k' => x * at_least_rec m' k' x + (1 - x) * at_least_rec m' k x
      end
  end.

(** Bisection with [steps] halvings *)
Fixpoint bisection (f : Q -> Q) (steps : nat) (a b : Q) : Q :=
  let c := (a + b) / 2 in
  match steps with
  | O => c
  | S k =>
      if Qle_bool (f a * f c) 0 then bisection f k a c
      else bisection f k c b
  end.

(** A root finder with the interface of [brentq]: it refuses a bracket
    whose ends have the same strict sign and bisects otherwise. *)
Definition bisect (f : Q -> Q) (a b : Q) : result Q :=
  if Qltb 0 (f a * f b) then Raise ValueError
  else Ok (bisection f 4 a b).

(** A single uncoupled agent at -1 under a positive field: its local mean
    is 0/0. *)
Definition rfim_single : RFIM.t :=
  RFIM.mk 0 1 1 [-1]%Z [0] 1.

(** Whether the arrays [a] and [b] differ at index [i] *)
Definition changed (a b : list Z) (i : nat) : bool :=
  match nth_error a i, nth_error b i with
  | Some x, Some y => negb (x =? y)%Z
  | None, None => false
  | _, _ => true
  end.

(** The number of indices of [idx] at which [a] and [b] differ *)
Definition count_changed (a b : list Z) (idx : list nat) : nat :=
  length (filter (changed a b) idx).

(** Three agents under the notebook's coupling and field, [J = 1] and
    [F = 15] *)
Definition rfim_driven : RFIM.t :=
  RFIM.mk 1 15 3 [-1; 1; -1]%Z [0; 1 # 2; -(1)] 1.

(** What the loop of a sweep keeps when the instance [st0], at rest
    under its own field, is swept under the lower field [F']; [idx] holds
    the agents still to be tried and [s] is the running count. The sum has
    dropped by two per flip, the agents of [idx] are as they were, and every
    other agent is as it was or went from +1 to -1. *)
Definition one_way (st0 : RFIM.t) (F' : Q) (idx : list nat)
    (cur : RFIM.t) (s : nat) : Prop :=
  cur = RFIM.with_S (RFIM.with_F st0 F') (RFIM.S cur) /\
  (forall i, In i idx ->
             nth_error (RFIM.S cur) i = nth_error (RFIM.S st0) i) /\
  np_sum (RFIM.S cur) = (np_sum (RFIM.S st0) - 2 * Z.of_nat s)%Z /\
  (forall i, nth_error (RFIM.S cur) i = nth_error (RFIM.S st0) i \/
             (nth_error (RFIM.S st0) i = Some 1%Z /\
              nth_error (RFIM.S cur) i = Some (-1)%Z)).

(** Three agents at +1, at rest under [J = 1] and [F = 0] *)
Definition rfim_rest : RFIM.t :=
  RFIM.mk 1 0 3 [1; 1; 1]%Z [1; 1 # 2; -(1 # 2)] 1.

(** What the sweeps keep when the instance [st0], at rest under its own
    field, is relaxed under the lower field [F'] with the loop bound
    [N_global]: the sum of the opinions has not grown, every agent is as it
    was or went from +1 to -1, and no agent of the loop at -1 has a
    positive local field. *)
Definition relaxing_down (st0 : RFIM.t) (F' : Q) (N_global : nat)
    (cur : RFIM.t) : Prop :=
  cur = RFIM.with_S (RFIM.with_F st0 F') (RFIM.S cur) /\
  (np_sum (RFIM.S cur) <= np_sum (RFIM.S st0))%Z /\
  (forall i, nth_error (RFIM.S cur) i = nth_error (RFIM.S st0) i \/
             (nth_error (RFIM.S st0) i = Some 1%Z /\
              nth_error (RFIM.S cur) i = Some (-1)%Z)) /\
  (forall i x, (i < N_global)%nat ->
               nth_error (RFIM.S cur) i = Some (-1)%Z ->
               RFIM.p cur i = Ok (Fin x) -> x <= 0).

(** * Properties *)

(** ** Arrays *)

Lemma set_item_length (l : list Z) (i : nat) (v : Z) :
  length (set_item l i v) = length l.
Proof.
  revert i; induction l as [|x l IH]; intros [|i]; simpl; auto.
Qed.

Lemma set_item_same (l : list Z) (i : nat) (v : Z) :
  (i < length l)%nat -> nth_error (set_item l i v) i = Some v.
Proof.
  revert i; induction l as [|x l IH]; intros [|i] Hi; simpl in *;
    try lia; auto.
  apply IH; lia.
Qed.

Lemma set_item_other (l : list Z) (i j : nat) (v : Z) :
  i <> j -> nth_error (set_item l i v) j = nth_error l j.
Proof.
  revert i j; induction l as [|x l IH]; intros [|i] [|j] Hij; simpl;
    auto; try congruence.
Qed.

Lemma set_item_sum (l : list Z) (i : nat) (s v : Z) :
  nth_error l i = Some s ->
  np_sum (set_item l i v) = (np_sum l - s + v)%Z.
Proof.
  revert i; induction l as [|x l IH]; intros [|i] Hi; simpl in *;
    try discriminate.
  - injection Hi as ->. lia.
  - rewrite (IH _ Hi). lia.
Qed.

Lemma set_item_firstn (l : list Z) (i n : nat) (v : Z) :
  (n <= i)%nat -> firstn n (set_item l i v) = firstn n l.
Proof.
  revert i n; induction l as [|x l IH]; intros [|i] [|n] Hn; simpl;
    auto; try lia.
  f_equal. apply IH. lia.
Qed.

(** ** RFIM: a single flip *)

Section RFIM_flip.

Import RFIM.

(** What [flip] returns: an error, the state untouched with 0, or the
    state with entry [i] negated and 1. *)
Lemma flip_cases (st : t) (i : nat) (st' : t) (r : nat) :
  flip st i = Ok (st', r) ->
  (st' = st /\ r = 0%nat) \/
  (exists s x sg,
      nth_error (S st) i = Some s /\ p st i = Ok x /\
      np_sign x = Some sg /\ (s * sg = -1)%Z /\
      st' = with_S st (set_item (S st) i (- s)%Z) /\ r = 1%nat).
Proof.
  unfold flip. destruct (nth_error (S st) i) as [s|] eqn:Hs;
    [|discriminate].
  destruct (p st i) as [x|e] eqn:Hp; simpl; [|discriminate].
  destruct (np_sign x) as [sg|] eqn:Hsg; simpl.
  - destruct (s * sg)%Z as [|q|q] eqn:Hprod;
      try (intros [= <- <-]; now left).
    destruct q; try (intros [= <- <-]; now left).
    intros [= <- <-]. right. exists s, x, sg.
    repeat split; auto. f_equal. f_equal. lia.
  - intros [= <- <-]; now left.
Qed.

(** C10. If the local field of agent [i] is exactly zero, or has the sign
    of [S[i]], then [flip i] returns 0 and the state it returns is the
    state it was given: [S], [h], [F] and [J] are untouched. *)
Theorem flip_unchanged_when_field_zero_or_agrees
    (st : t) (i : nat) (s : Z) (x : xfloat) :
  nth_error (S st) i = Some s ->
  p st i = Ok x ->
  np_sign x = Some 0%Z \/ np_sign x = Some (Z.sgn s) ->
  flip st i = Ok (st, 0%nat).
Proof.
  intros Hs Hp Hx. unfold flip. rewrite Hs, Hp. simpl.
  destruct Hx as [-> | ->]; simpl.
  - replace (s * 0)%Z with 0%Z by lia. reflexivity.
  - destruct s; reflexivity.
Qed.

End RFIM_flip.

Lemma flip_unchanged_when_field_zero_or_agrees_witness :
  RFIM.flip rfim_zero_field 0 = Ok (rfim_zero_field, 0%nat).
Proof.
  eapply flip_unchanged_when_field_zero_or_agrees.
  - reflexivity.
  - reflexivity.
  - left. reflexivity.
Defined.

(** ** RFIM: a sweep *)

Section RFIM_sweep.

Import RFIM.

(** The loop makes its attempts in the order of [idx], one per index. *)
Lemma sweep_loop_app (idx1 idx2 : list nat) (st : t) (s : nat) :
  sweep_loop (idx1 ++ idx2) st s =
  ('(st', s') <- sweep_loop idx1 st s ;; sweep_loop idx2 st' s').
Proof.
  revert st s; induction idx1 as [|i idx1 IH]; intros st s; simpl; auto.
  destruct (flip st i) as [[st1 r]|e]; simpl; auto.
Qed.

(** When the module-level [N] is the instance's own [N], [sweep] is the
    documented sweep. *)
Lemma sweep_all_agents_when_same_N (st : t) :
  sweep (N st) st = sweep_all_agents st.
Proof. reflexivity. Qed.

(** C2, at the instance [rfim_three] with module-level [N = 2]: [sweep]
    stops after agents 0 and 1 and reports no flip, although agent 2
    flips when tried, and the sweep over all three agents reports 1. *)
Theorem sweep_skips_agents_beyond_global_N :
  sweep 2 rfim_three = Ok (rfim_three, 0%nat) /\
  flip rfim_three 2 = Ok (with_S rfim_three [1; 1; -1]%Z, 1%nat) /\
  sweep_all_agents rfim_three = Ok (with_S rfim_three [1; 1; -1]%Z, 1%nat).
Proof. repeat split; reflexivity. Qed.

(** The count never decreases, and it stays put only if the state does. *)
Lemma sweep_loop_count (idx : list nat) :
  forall (st : t) (s : nat) (st' : t) (s' : nat),
    sweep_loop idx st s = Ok (st', s') ->
    (s <= s')%nat /\ (s' = s -> st' = st).
Proof.
  induction idx as [|i idx IH]; intros st s st' s'; simpl.
  - intros [= <- <-]. split; auto.
  - destruct (flip st i) as [[st1 r]|e] eqn:Hf; simpl; [|discriminate].
    intros Hloop. destruct (IH _ _ _ _ Hloop) as [Hle Hsame].
    destruct (flip_cases _ _ _ _ Hf) as [[-> ->] | (s0 & x & sg & _ & _ & _ & _ & _ & ->)].
    + split; [lia|]. intros ->. apply Hsame. lia.
    + split; [lia|]. intros ->. lia.
Qed.

Lemma sweep_zero_fixed (gN : nat) (st st' : t) :
  sweep gN st = Ok (st', 0%nat) -> st' = st.
Proof.
  intros H. apply (sweep_loop_count _ _ _ _ _ H). reflexivity.
Qed.

(** The state [equilibrate] returns is one that a sweep leaves alone. *)
Lemma equilibrate_fixed (gN fuel : nat) :
  forall (st st' : t),
    equilibrate gN fuel st = Some (Ok st') ->
    sweep gN st' = Ok (st', 0%nat).
Proof.
  induction fuel as [|fuel IH]; intros st st'; simpl; [discriminate|].
  destruct (sweep gN st) as [[st1 flips]|e] eqn:Hs; [|discriminate].
  destruct flips as [|k]; simpl.
  - intros [= <-]. pose proof (sweep_zero_fixed _ _ _ Hs) as Heq.
    subst st1. exact Hs.
  - apply IH.
Qed.

End RFIM_sweep.

(** ** RFIM: every flip lowers the energy *)

Lemma field_sum_set_item (F : Q) (h : list Q) (l : list Z) (i : nat)
    (s v : Z) (hi : Q) :
  nth_error l i = Some s -> nth_error h i = Some hi ->
  field_sum F h (set_item l i v)
  == field_sum F h l + (hi + F) * (inject_Z v - inject_Z s).
Proof.
  revert l i; induction h as [|a h IH]; intros [|x l] [|i] Hs Hh;
    simpl in *; try discriminate.
  - injection Hs as ->. injection Hh as ->. ring.
  - rewrite (IH _ _ Hs Hh). ring.
Qed.

Lemma Qsign_neg (q : Q) : Qsign q = (-1)%Z -> q < 0.
Proof.
  unfold Qsign, Qlt. destruct q as [[|n|n] d]; simpl; try discriminate.
  intros _. lia.
Qed.

Lemma Qsign_pos (q : Q) : Qsign q = 1%Z -> 0 < q.
Proof.
  unfold Qsign, Qlt. destruct q as [[|n|n] d]; simpl; try discriminate.
  intros _. lia.
Qed.

Lemma Qsign_zero (q : Q) : Qsign q = 0%Z -> q == 0.
Proof.
  unfold Qsign, Qeq. destruct q as [[|n|n] d]; simpl; try discriminate.
  reflexivity.
Qed.

Lemma Qsign_of_neg (q : Q) : q < 0 -> Qsign q = (-1)%Z.
Proof.
  unfold Qsign, Qlt. destruct q as [[|n|n] d]; simpl; try lia.
Qed.

Lemma Qsign_of_pos (q : Q) : 0 < q -> Qsign q = 1%Z.
Proof.
  unfold Qsign, Qlt. destruct q as [[|n|n] d]; simpl; try lia.
Qed.

Lemma product_minus_one (s sg : Z) :
  (s * sg = -1)%Z -> (s = 1 /\ sg = -1)%Z \/ (s = -1 /\ sg = 1)%Z.
Proof.
  intros H. assert (H1 : (s * - sg = 1)%Z) by lia.
  destruct (Z.eq_mul_1 _ _ H1) as [-> | ->]; lia.
Qed.

Section RFIM_energy.

Import RFIM.

(** The local field of a well-formed instance of at least two agents is
    a finite number. *)
Lemma p_finite (st : t) (i : nat) (s : Z) (x : xfloat) :
  (2 <= N st)%nat ->
  nth_error (S st) i = Some s ->
  p st i = Ok x ->
  exists hi,
    nth_error (h st) i = Some hi /\
    x = Fin (hi + F st
             + J st * (inject_Z (np_sum (S st) - s)
                       / inject_Z (Z.of_nat (N st) - 1))).
Proof.
  intros HN Hs. unfold p. cbv zeta. rewrite Hs.
  destruct (nth_error (h st) i) as [hi|]; [|discriminate].
  intros [= <-]. exists hi. split; auto.
  unfold np_div.
  destruct (Z.eqb_spec (Z.of_nat (N st) - 1) 0) as [E|_]; [lia|].
  reflexivity.
Qed.

(** With a single agent the local mean is 0/0: the field is nan. *)
Lemma p_single_agent (st : t) (i : nat) (x : xfloat) :
  length (S st) = N st -> (N st <= 1)%nat ->
  p st i = Ok x -> x = NaN.
Proof.
  intros Hlen HN. unfold p. cbv zeta.
  destruct (S st) as [|s0 [|s1 l]] eqn:HS; simpl in Hlen; try lia.
  - destruct i; discriminate.
  - destruct i as [|i]; simpl; [|destruct i; discriminate].
    destruct (h st) as [|hi hs]; [discriminate|].
    intros [= <-]. rewrite <- Hlen. simpl.
    replace (s0 + 0 - s0)%Z with 0%Z by lia. reflexivity.
Qed.

(** A flip that happens lowers the energy by [2 * |p_i|]. *)
Lemma flip_lowers_energy (st st' : t) (i : nat) :
  length (S st) = N st ->
  flip st i = Ok (st', 1%nat) ->
  energy st' < energy st.
Proof.
  intros Hlen Hf.
  destruct (flip_cases _ _ _ _ Hf)
    as [[_ ?] | (s & x & sg & Hs & Hp & Hsg & Hprod & -> & _)];
    [discriminate|].
  destruct (Nat.le_gt_cases (N st) 1) as [HN|HN].
  { rewrite (p_single_agent _ _ _ Hlen HN Hp) in Hsg. discriminate. }
  destruct (p_finite _ _ _ _ HN Hs Hp) as (hi & Hh & ->).
  simpl in Hsg. injection Hsg as Hsg.
  unfold energy. simpl.
  rewrite (field_sum_set_item _ _ _ _ _ _ _ Hs Hh).
  rewrite (set_item_sum _ _ _ _ Hs).
  set (T := np_sum (S st)) in *.
  set (d := inject_Z (Z.of_nat (N st) - 1)) in *.
  assert (Hd : ~ d == 0).
  { unfold d, Qeq. simpl. lia. }
  set (pv := hi + F st + J st * (inject_Z (T - s) / d)) in *.
  assert (Hdiff :
    - (field_sum (F st) (h st) (S st)
       + (hi + F st) * (inject_Z (- s) - inject_Z s))
    - J st / d / 2 * (inject_Z (T - s + - s) * inject_Z (T - s + - s))
    == - field_sum (F st) (h st) (S st)
       - J st / d / 2 * (inject_Z T * inject_Z T)
       + 2 * inject_Z s * pv).
  { unfold pv. unfold Z.sub.
    rewrite !inject_Z_plus, !inject_Z_opp. field. exact Hd. }
  rewrite Hdiff.
  assert (Hneg : inject_Z s * pv < 0).
  { destruct (product_minus_one _ _ Hprod) as [[-> ->] | [-> ->]].
    - apply Qsign_neg in Hsg. change (inject_Z 1) with 1. lra.
    - apply Qsign_pos in Hsg. change (inject_Z (-1)) with (-(1)). lra. }
  lra.
Qed.

End RFIM_energy.

(** ** Flips stay inside a finite set of arrays *)

Lemma same_up_to_sign_refl (a : list Z) : same_up_to_sign a a.
Proof. induction a; constructor; auto. Qed.

Lemma same_up_to_sign_trans (a b c : list Z) :
  same_up_to_sign a b -> same_up_to_sign b c -> same_up_to_sign a c.
Proof.
  intros Hab; revert c; induction Hab as [|x y a b Hxy Hab IH];
    intros c Hbc; inversion Hbc; subst; constructor.
  - lia.
  - now apply IH.
Qed.

Lemma same_up_to_sign_length (a b : list Z) :
  same_up_to_sign a b -> length a = length b.
Proof. induction 1; simpl; auto. Qed.

Lemma same_up_to_sign_set_item (a : list Z) (i : nat) (s : Z) :
  nth_error a i = Some s ->
  same_up_to_sign (set_item a i (- s)%Z) a.
Proof.
  revert i; induction a as [|x a IH]; intros [|i] Hi; simpl in *;
    try discriminate.
  - injection Hi as ->. constructor; [now right | apply same_up_to_sign_refl].
  - constructor; [now left | now apply IH].
Qed.

Lemma variants_complete (a b : list Z) :
  same_up_to_sign a b -> In a (variants b).
Proof.
  induction 1 as [|x y a b Hxy Hab IH]; simpl; [now left|].
  apply in_or_app. destruct Hxy as [-> | ->]; [left | right];
    now apply in_map.
Qed.

(** ** A strictly decreasing energy on a finite set cannot go on *)

Lemma Qltb_spec (a b : Q) : Qltb a b = true <-> a < b.
Proof.
  unfold Qltb. rewrite negb_true_iff.
  destruct (Qle_bool b a) eqn:E.
  - apply Qle_bool_iff in E. split; [discriminate | intros; lra].
  - split; auto. intros _. apply Qnot_le_lt. intros H.
    apply Qle_bool_iff in H. congruence.
Qed.

Lemma filter_length_lt {A : Type} (f g : A -> bool) (l : list A) (a : A) :
  (forall x, f x = true -> g x = true) ->
  In a l -> f a = false -> g a = true ->
  (length (filter f l) < length (filter g l))%nat.
Proof.
  intros Hfg Hin Hfa Hga.
  assert (Hle : forall l', (length (filter f l') <= length (filter g l'))%nat).
  { induction l' as [|x l' IH]; simpl; auto.
    destruct (f x) eqn:Ef.
    - rewrite (Hfg _ Ef). simpl. lia.
    - destruct (g x); simpl; lia. }
  induction l as [|x l IH]; simpl in *; [contradiction|].
  destruct Hin as [-> | Hin].
  - rewrite Hfa, Hga. simpl. specialize (Hle l). lia.
  - specialize (IH Hin). destruct (f x) eqn:Ef.
    + rewrite (Hfg _ Ef). simpl. lia.
    + destruct (g x); simpl; lia.
Qed.

Lemma rank_lt (E : list Z -> Q) (univ : list (list Z)) (a b : list Z) :
  In a univ -> E a < E b -> (rank E univ a < rank E univ b)%nat.
Proof.
  intros Hin Hlt. unfold rank. apply filter_length_lt with (a := a); auto.
  - intros x Hx. apply Qltb_spec in Hx. apply Qltb_spec. lra.
  - destruct (Qltb (E a) (E a)) eqn:Ea; auto.
    apply Qltb_spec in Ea. lra.
  - now apply Qltb_spec.
Qed.

(** ** RFIM: equilibrate terminates *)

Section RFIM_equilibrate.

Import RFIM.

Lemma with_S_same (st : t) : with_S st (S st) = st.
Proof. destruct st; reflexivity. Qed.

(** A sweep only flips entries, and either flips nobody or lowers the
    energy. *)
Lemma sweep_loop_descends (idx : list nat) :
  forall (st : t) (s : nat) (st' : t) (s' : nat),
    length (S st) = N st ->
    sweep_loop idx st s = Ok (st', s') ->
    st' = with_S st (S st') /\
    same_up_to_sign (S st') (S st) /\
    ((s' = s /\ st' = st) \/ ((s < s')%nat /\ energy st' < energy st)).
Proof.
  induction idx as [|i idx IH]; intros st s st' s' Hlen; simpl.
  - intros [= <- <-]. rewrite with_S_same.
    repeat split; auto using same_up_to_sign_refl.
  - destruct (flip st i) as [[st1 r]|e] eqn:Hf; simpl; [|discriminate].
    intros Hloop.
    destruct (flip_cases _ _ _ _ Hf)
      as [[-> ->] | (s0 & x & sg & Hs & _ & _ & _ & Hst1 & ->)].
    + rewrite Nat.add_0_r in Hloop. now apply IH.
    + pose proof (flip_lowers_energy _ _ _ Hlen Hf) as Hdown.
      assert (Hlen1 : length (S st1) = N st1).
      { subst st1. simpl. now rewrite set_item_length. }
      destruct (IH _ _ _ _ Hlen1 Hloop) as (Hw & Hsame & Hcases).
      assert (Hsame1 : same_up_to_sign (S st1) (S st)).
      { subst st1. simpl. now apply same_up_to_sign_set_item. }
      split; [|split].
      * rewrite Hw. subst st1. reflexivity.
      * eapply same_up_to_sign_trans; eauto.
      * right. destruct Hcases as [[-> ->] | [Hlt Hen]].
        -- split; [lia | exact Hdown].
        -- split; [lia | lra].
Qed.

(** Fuel above the rank of the current array is enough. *)
Lemma equilibrate_enough_fuel (gN : nat) (st0 : t) :
  forall (fuel : nat) (st : t),
    length (S st) = N st ->
    st = with_S st0 (S st) ->
    same_up_to_sign (S st) (S st0) ->
    (rank (energy_of st0) (variants (S st0)) (S st) < fuel)%nat ->
    exists r, equilibrate gN fuel st = Some r.
Proof.
  induction fuel as [|fuel IH]; intros st Hlen Hst Hsame Hrank;
    [lia|]. simpl.
  destruct (sweep gN st) as [[st' flips]|e] eqn:Hs; [|eauto].
  destruct flips as [|k]; simpl; [eauto|].
  destruct (sweep_loop_descends _ _ _ _ _ Hlen Hs)
    as (Hw & Hsame' & [[? _] | [_ Hen]]); [discriminate|].
  assert (Hst' : st' = with_S st0 (S st')).
  { rewrite Hw, Hst. reflexivity. }
  assert (Hsame0 : same_up_to_sign (S st') (S st0))
    by (eapply same_up_to_sign_trans; eauto).
  apply IH; auto.
  - rewrite Hst'. simpl. rewrite Hst in Hlen. simpl in Hlen.
    rewrite <- Hlen.
    rewrite (same_up_to_sign_length _ _ Hsame0).
    symmetry. apply (same_up_to_sign_length _ _ Hsame).
  - assert (Hlt : (rank (energy_of st0) (variants (S st0)) (S st')
                   < rank (energy_of st0) (variants (S st0)) (S st))%nat).
    { apply rank_lt; [now apply variants_complete|].
      unfold energy_of. rewrite <- Hst', <- Hst. exact Hen. }
    lia.
Qed.

(** A sweep changes nothing but [S], and [S] by flips only. *)
Lemma sweep_loop_only_flips (idx : list nat) :
  forall (st : t) (s : nat) (st' : t) (s' : nat),
    sweep_loop idx st s = Ok (st', s') ->
    st' = with_S st (S st') /\ same_up_to_sign (S st') (S st).
Proof.
  induction idx as [|i idx IH]; intros st s st' s'; simpl.
  - intros [= <- _]. rewrite with_S_same.
    auto using same_up_to_sign_refl.
  - destruct (flip st i) as [[st1 r]|e] eqn:Hf; simpl; [|discriminate].
    intros Hloop. destruct (IH _ _ _ _ Hloop) as [E1 E2].
    destruct (flip_cases _ _ _ _ Hf)
      as [[-> ->] | (s0 & x & sg & Hs0 & _ & _ & _ & Hst1 & ->)]; auto.
    subst st1. simpl in *. split; [exact E1|].
    eapply same_up_to_sign_trans; [exact E2|].
    now apply same_up_to_sign_set_item.
Qed.

Lemma sweep_loop_frame (idx : list nat) (st : t) (s : nat) (st' : t)
    (s' : nat) :
  sweep_loop idx st s = Ok (st', s') ->
  length (S st') = length (S st) /\ h st' = h st.
Proof.
  intros H. destruct (sweep_loop_only_flips _ _ _ _ _ H) as [E1 E2].
  split; [now apply same_up_to_sign_length|].
  rewrite E1. reflexivity.
Qed.

(** A valid index makes [flip] return. *)
Lemma flip_returns (st : t) (i : nat) :
  (i < length (S st))%nat -> (i < length (h st))%nat ->
  exists st' r, flip st i = Ok (st', r) /\
                length (S st') = length (S st) /\ h st' = h st.
Proof.
  intros HS Hh. unfold flip, p. cbv zeta.
  destruct (nth_error (S st) i) as [s|] eqn:Es;
    [|apply nth_error_None in Es; lia].
  destruct (nth_error (h st) i) as [hi|] eqn:Eh;
    [|apply nth_error_None in Eh; lia].
  simpl.
  match goal with
  | |- context [option_map ?f ?o] => destruct (option_map f o) as [[|q|q]|]
  end; try (exists st, 0%nat; now repeat split).
  destruct q; try (exists st, 0%nat; now repeat split).
  eexists _, _. split; [reflexivity|]. simpl.
  now rewrite set_item_length.
Qed.

Lemma sweep_loop_returns (idx : list nat) :
  forall (st : t) (s : nat),
    Forall (fun i => (i < length (S st))%nat /\ (i < length (h st))%nat) idx ->
    exists st' s', sweep_loop idx st s = Ok (st', s').
Proof.
  induction idx as [|i idx IH]; intros st s Hidx; simpl; [eauto|].
  inversion Hidx as [|? ? [HS Hh] Hrest]; subst.
  destruct (flip_returns st i HS Hh) as (st1 & r & -> & HlenS & Hh1).
  simpl. apply IH. rewrite HlenS, Hh1. exact Hrest.
Qed.

(** When every index of the loop is an index of [S] and of [h],
    [equilibrate] does not raise. *)
Lemma equilibrate_no_raise (gN fuel : nat) :
  forall (st : t) (r : result t),
    (gN <= length (S st))%nat -> (gN <= length (h st))%nat ->
    equilibrate gN fuel st = Some r ->
    exists st', r = Ok st'.
Proof.
  induction fuel as [|fuel IH]; intros st r HS Hh; simpl; [discriminate|].
  destruct (sweep gN st) as [[st1 flips]|e] eqn:Hs.
  - destruct flips as [|k]; simpl; [intros [= <-]; eauto|].
    destruct (sweep_loop_frame _ _ _ _ _ Hs) as [E1 E2].
    apply IH; [lia | rewrite E2; lia].
  - intros [= <-]. exfalso.
    destruct (sweep_loop_returns (range 0 gN) st 0%nat) as (st' & s' & Hok).
    + apply Forall_forall. intros i Hi. unfold range in Hi.
      apply in_seq in Hi. lia.
    + unfold sweep in Hs. congruence.
Qed.

End RFIM_equilibrate.

Section RFIM_relax.

Import RFIM.

(** C3. [equilibrate] terminates on every instance whose array [S] has
    [N] entries: with enough fuel it returns or raises; the state it
    returns is one on which a further [sweep] returns 0 and which that
    sweep leaves as it is; and it does return (no exception) when the loop
    bound is within [S] and [h]. *)
Theorem equilibrate_terminates_at_fixed_point (N_global : nat) (st : t) :
  length (S st) = N st ->
  exists fuel r,
    equilibrate N_global fuel st = Some r /\
    (forall st', r = Ok st' -> sweep N_global st' = Ok (st', 0%nat)) /\
    ((N_global <= N st)%nat -> length (h st) = N st ->
     exists st', r = Ok st').
Proof.
  intros Hlen.
  set (fuel := Datatypes.S (rank (energy_of st) (variants (S st)) (S st))).
  destruct (equilibrate_enough_fuel N_global st fuel st) as [r Hr].
  - exact Hlen.
  - symmetry. apply with_S_same.
  - apply same_up_to_sign_refl.
  - unfold fuel. lia.
  - exists fuel, r. split; [exact Hr|]. split.
    + intros st' ->. eapply equilibrate_fixed; eauto.
    + intros HN Hh.
      apply (equilibrate_no_raise N_global fuel st r); [lia | lia | exact Hr].
Qed.

End RFIM_relax.

Lemma equilibrate_terminates_at_fixed_point_witness :
  exists fuel r,
    RFIM.equilibrate 3 fuel rfim_three = Some r /\
    (forall st', r = Ok st' -> RFIM.sweep 3 st' = Ok (st', 0%nat)) /\
    ((3 <= RFIM.N rfim_three)%nat ->
     length (RFIM.h rfim_three) = RFIM.N rfim_three ->
     exists st', r = Ok st').
Proof.
  apply (equilibrate_terminates_at_fixed_point 3 rfim_three).
  reflexivity.
Defined.

(** ** RFIM: the decoupled limit *)

Lemma Qsign_compat (a b : Q) : a == b -> Qsign a = Qsign b.
Proof.
  intros Hab. destruct (Q_dec a 0) as [[Ha | Ha] | Ha].
  - rewrite (Qsign_of_neg a Ha). symmetry. apply Qsign_of_neg. lra.
  - rewrite (Qsign_of_pos a Ha). symmetry. apply Qsign_of_pos. lra.
  - assert (Hb : b == 0) by lra.
    unfold Qsign. unfold Qeq in Ha, Hb. simpl in Ha, Hb.
    replace (Qnum a) with 0%Z by lia. replace (Qnum b) with 0%Z by lia.
    reflexivity.
Qed.

Lemma Qsign_cases (a : Q) :
  (a < 0 /\ Qsign a = (-1)%Z) \/ (a == 0 /\ Qsign a = 0%Z) \/
  (0 < a /\ Qsign a = 1%Z).
Proof.
  destruct (Q_dec a 0) as [[Ha | Ha] | Ha].
  - left. auto using Qsign_of_neg.
  - right. right. auto using Qsign_of_pos.
  - right. left. split; auto.
    unfold Qsign. unfold Qeq in Ha. simpl in Ha.
    replace (Qnum a) with 0%Z by lia. reflexivity.
Qed.

Lemma is_opinion_same_up_to_sign (a b : list Z) :
  same_up_to_sign a b -> Forall is_opinion b -> Forall is_opinion a.
Proof.
  induction 1 as [|x y a b Hxy Hab IH]; intros Hb; constructor;
    inversion Hb; subst; auto.
  unfold is_opinion in *. lia.
Qed.

Section RFIM_decoupled.

Import RFIM.

Lemma p_value (st : t) (i : nat) (s : Z) (hi : Q) :
  (2 <= N st)%nat ->
  nth_error (S st) i = Some s -> nth_error (h st) i = Some hi ->
  p st i = Ok (Fin (hi + F st
                    + J st * (inject_Z (np_sum (S st) - s)
                              / inject_Z (Z.of_nat (N st) - 1)))).
Proof.
  intros HN Hs Hh. unfold p. cbv zeta. rewrite Hs, Hh. unfold np_div.
  destruct (Z.eqb_spec (Z.of_nat (N st) - 1) 0) as [E|_]; [lia|].
  reflexivity.
Qed.

(** With [J = 0] the sign of the local field is the sign of
    [h[i] + F]. *)
Lemma decoupled_sign (st : t) (hi x : Q) :
  J st == 0 -> Qsign (hi + F st + J st * x) = Qsign (hi + F st).
Proof. intros HJ. apply Qsign_compat. rewrite HJ. ring. Qed.

(** A sweep that returns the state it was given has found every agent of
    its loop unwilling to flip. *)
Lemma sweep_loop_fixed_flips (idx : list nat) :
  forall (st : t) (s : nat),
    sweep_loop idx st s = Ok (st, s) ->
    forall i, In i idx -> flip st i = Ok (st, 0%nat).
Proof.
  induction idx as [|j idx IH]; intros st s Hloop i Hi; simpl in *;
    [contradiction|].
  destruct (flip st j) as [[st1 r]|e] eqn:Hf; simpl in Hloop;
    [|discriminate].
  destruct (sweep_loop_count _ _ _ _ _ Hloop) as [Hle _].
  destruct (flip_cases _ _ _ _ Hf)
    as [[-> ->] | (_ & _ & _ & _ & _ & _ & _ & _ & ->)]; [|lia].
  rewrite Nat.add_0_r in Hloop.
  destruct Hi as [<- | Hi]; [exact Hf | eauto].
Qed.

(** An agent that does not flip under a nonzero decoupled field already
    has the sign of that field. *)
Lemma flip_fixed_decoupled (st : t) (i : nat) (s : Z) (hi : Q) :
  J st == 0 -> (2 <= N st)%nat ->
  nth_error (S st) i = Some s -> is_opinion s ->
  nth_error (h st) i = Some hi -> ~ hi + F st == 0 ->
  flip st i = Ok (st, 0%nat) ->
  s = Qsign (hi + F st).
Proof.
  intros HJ HN Hs Hop Hh Hnz. unfold flip.
  rewrite Hs, (p_value _ _ _ _ HN Hs Hh). simpl.
  rewrite (decoupled_sign _ _ _ HJ).
  destruct (Qsign_cases (hi + F st)) as [[_ ->] | [[Hz _] | [_ ->]]];
    [| contradiction |];
    destruct Hop as [-> | ->]; simpl; intros H; try reflexivity;
    discriminate.
Qed.

(** An agent whose decoupled field is exactly zero is never flipped. *)
Lemma flip_keeps_tied (st st1 : t) (j r i : nat) (hi : Q) :
  J st == 0 -> (2 <= N st)%nat ->
  nth_error (h st) i = Some hi -> hi + F st == 0 ->
  flip st j = Ok (st1, r) ->
  nth_error (S st1) i = nth_error (S st) i.
Proof.
  intros HJ HN Hh Hz Hf.
  destruct (flip_cases _ _ _ _ Hf)
    as [[-> _] | (s & x & sg & Hs & Hp & Hsg & Hprod & -> & _)]; auto.
  simpl. destruct (Nat.eq_dec j i) as [-> | Hji];
    [|now apply set_item_other].
  exfalso. rewrite (p_value _ _ _ _ HN Hs Hh) in Hp.
  injection Hp as <-. simpl in Hsg.
  rewrite (decoupled_sign _ _ _ HJ) in Hsg.
  destruct (Qsign_cases (hi + F st)) as [[? _] | [[_ E] | [? _]]];
    try lra.
  rewrite E in Hsg. injection Hsg as <-. lia.
Qed.

Lemma sweep_loop_keeps_tied (idx : list nat) (i : nat) (hi : Q) :
  forall (st : t) (s : nat) (st' : t) (s' : nat),
    J st == 0 -> (2 <= N st)%nat ->
    nth_error (h st) i = Some hi -> hi + F st == 0 ->
    sweep_loop idx st s = Ok (st', s') ->
    nth_error (S st') i = nth_error (S st) i.
Proof.
  induction idx as [|j idx IH]; intros st s st' s' HJ HN Hh Hz; simpl.
  - intros [= <- _]. reflexivity.
  - destruct (flip st j) as [[st1 r]|e] eqn:Hf; simpl; [|discriminate].
    intros Hloop.
    rewrite <- (flip_keeps_tied _ _ _ _ _ _ HJ HN Hh Hz Hf).
    assert (E : st1 = with_S st (S st1)).
    { destruct (flip_cases _ _ _ _ Hf)
        as [[E0 _] | (? & ? & ? & _ & _ & _ & _ & E0 & _)]; rewrite E0;
        [symmetry; apply with_S_same | reflexivity]. }
    eapply (IH st1); [ | | | | exact Hloop]; rewrite E; simpl; auto.
Qed.

(** [equilibrate] changes nothing but [S], and [S] by flips only. *)
Lemma equilibrate_only_flips (gN fuel : nat) :
  forall (st st' : t),
    equilibrate gN fuel st = Some (Ok st') ->
    st' = with_S st (S st') /\ same_up_to_sign (S st') (S st).
Proof.
  induction fuel as [|fuel IH]; intros st st'; simpl; [discriminate|].
  destruct (sweep gN st) as [[st1 flips]|e] eqn:Hs; [|discriminate].
  destruct (sweep_loop_only_flips _ _ _ _ _ Hs) as [E1 E2].
  destruct flips as [|k]; simpl.
  - intros [= <-]. auto.
  - intros H. destruct (IH _ _ H) as [E3 E4]. split.
    + rewrite E3, E1. reflexivity.
    + eapply same_up_to_sign_trans; eauto.
Qed.

Lemma equilibrate_keeps_tied (gN fuel i : nat) (hi : Q) :
  forall (st st' : t),
    J st == 0 -> (2 <= N st)%nat ->
    nth_error (h st) i = Some hi -> hi + F st == 0 ->
    equilibrate gN fuel st = Some (Ok st') ->
    nth_error (S st') i = nth_error (S st) i.
Proof.
  induction fuel as [|fuel IH]; intros st st' HJ HN Hh Hz; simpl;
    [discriminate|].
  destruct (sweep gN st) as [[st1 flips]|e] eqn:Hs; [|discriminate].
  pose proof (sweep_loop_keeps_tied _ _ _ _ _ _ _ HJ HN Hh Hz Hs) as E.
  destruct (sweep_loop_only_flips _ _ _ _ _ Hs) as [E1 _].
  destruct flips as [|k]; simpl.
  - intros [= <-]. exact E.
  - intros H. rewrite <- E.
    eapply (IH st1 st'); [ | | | | exact H]; rewrite E1; simpl; auto.
Qed.

End RFIM_decoupled.

Section RFIM_instances.

Import RFIM.

(** [__init__] builds a well-formed instance. *)
Lemma init_well_formed (J0 F0 : Q) (N0 : nat) (delta0 : Q)
    (draw_S : nat -> bool) (draw_h : nat -> Q) (st : t) :
  init J0 F0 N0 delta0 draw_S draw_h = Ok st -> rfim_well_formed st.
Proof.
  unfold init. destruct (Qle_bool 0 delta0); [|discriminate].
  intros [= <-]. unfold rfim_well_formed, choice_pm. simpl.
  rewrite !length_map, !length_seq. repeat split.
  apply Forall_forall. intros s Hs. apply in_map_iff in Hs.
  destruct Hs as (k & <- & _). unfold is_opinion.
  destruct (draw_S k); auto.
Qed.

(** On a well-formed instance whose loop bound is within the population,
    [equilibrate] returns a state. *)
Lemma equilibrate_returns (gN : nat) (st : t) :
  rfim_well_formed st -> (gN <= N st)%nat ->
  exists fuel st', equilibrate gN fuel st = Some (Ok st').
Proof.
  intros (HS & Hh & _) HgN.
  destruct (equilibrate_enough_fuel gN st
              (Datatypes.S (rank (energy_of st) (variants (S st)) (S st))) st)
    as [r Hr]; auto using same_up_to_sign_refl.
  - symmetry. apply with_S_same.
  - edestruct (equilibrate_no_raise gN) as [st' Hst'];
      [ | | exact Hr | ]; [lia | lia | subst r; eauto].
Qed.

(** C7, as the code has it. For a well-formed instance of at least two
    agents with [J = 0], swept over its whole population, [equilibrate]
    returns, and in the state it returns every agent [i] with
    [h[i] + F <> 0] holds [sign(h[i] + F)], while an agent with
    [h[i] + F = 0] holds the opinion it started with. *)
Theorem decoupled_limit_away_from_zero_field (st : t) :
  rfim_well_formed st -> (2 <= N st)%nat -> J st == 0 ->
  (exists fuel st', equilibrate (N st) fuel st = Some (Ok st')) /\
  (forall fuel st',
      equilibrate (N st) fuel st = Some (Ok st') ->
      forall i hi,
        nth_error (h st) i = Some hi ->
        (~ hi + F st == 0 ->
         nth_error (S st') i = Some (Qsign (hi + F st))) /\
        (hi + F st == 0 ->
         nth_error (S st') i = nth_error (S st) i)).
Proof.
  intros Hwf HN HJ. split; [now apply equilibrate_returns|].
  intros fuel st' Heq i hi Hh.
  destruct Hwf as (HlenS & Hlenh & Hop).
  split; [|intros Hz; eapply equilibrate_keeps_tied; eauto].
  intros Hnz.
  destruct (equilibrate_only_flips _ _ _ _ Heq) as [E Hsame].
  assert (Hi : (i < N st)%nat).
  { rewrite <- Hlenh. apply nth_error_Some. congruence. }
  destruct (nth_error (S st') i) as [s|] eqn:Hs.
  2:{ apply nth_error_None in Hs.
      rewrite (same_up_to_sign_length _ _ Hsame) in Hs. lia. }
  f_equal.
  assert (Hfix : flip st' i = Ok (st', 0%nat)).
  { apply (sweep_loop_fixed_flips (range 0 (N st)) st' 0%nat).
    - apply (equilibrate_fixed _ _ _ _ Heq).
    - unfold range. apply in_seq. lia. }
  assert (Hop' : is_opinion s).
  { pose proof (is_opinion_same_up_to_sign _ _ Hsame Hop) as Hall.
    rewrite Forall_forall in Hall. apply Hall.
    eapply nth_error_In; eauto. }
  rewrite E in Hfix, Hs.
  replace (F st) with (F (with_S st (S st'))) by reflexivity.
  eapply flip_fixed_decoupled; eauto.
Qed.

End RFIM_instances.

Lemma decoupled_limit_away_from_zero_field_witness :
  (exists fuel st',
      RFIM.equilibrate (RFIM.N rfim_tie) fuel rfim_tie = Some (Ok st')) /\
  (forall fuel st',
      RFIM.equilibrate (RFIM.N rfim_tie) fuel rfim_tie = Some (Ok st') ->
      forall i hi,
        nth_error (RFIM.h rfim_tie) i = Some hi ->
        (~ hi + RFIM.F rfim_tie == 0 ->
         nth_error (RFIM.S st') i = Some (Qsign (hi + RFIM.F rfim_tie))) /\
        (hi + RFIM.F rfim_tie == 0 ->
         nth_error (RFIM.S st') i = nth_error (RFIM.S rfim_tie) i)).
Proof.
  apply (decoupled_limit_away_from_zero_field rfim_tie).
  - unfold rfim_well_formed, is_opinion. simpl.
    repeat split; repeat constructor; auto.
  - simpl. lia.
  - reflexivity.
Defined.

(** C7 as stated fails on [rfim_tie]: [equilibrate] returns with agent 0
    at +1, and [sign(h[0] + F)] is [sign(0) = 0]. It also fails on
    [rfim_single]: the field of a lone agent is nan, the agent stays at -1,
    and [sign(h[0] + F)] is +1. *)
Lemma decoupled_limit_fails_on_zero_field :
  ~ decoupled_limit_as_stated 2 rfim_tie /\
  ~ decoupled_limit_as_stated 1 rfim_single.
Proof.
  split; intros H.
  - specialize (H ltac:(reflexivity) 2%nat
                  (RFIM.with_S rfim_tie [1; -1]%Z) eq_refl
                  0%nat (1 # 2) eq_refl).
    discriminate H.
  - specialize (H ltac:(reflexivity) 1%nat rfim_single eq_refl
                  0%nat 0 eq_refl).
    discriminate H.
Qed.

(** ** MarsiliCurty: one step *)

Lemma np_sign_is_sign (x : xfloat) (sg : Z) :
  np_sign x = Some sg -> is_sign sg.
Proof.
  destruct x as [q | [|] |]; simpl; intros [= <-]; unfold is_sign; auto.
  unfold Qsign. destruct (Qnum q); simpl; auto.
Qed.

Lemma Forall_set_item (P : Z -> Prop) (l : list Z) (i : nat) (v : Z) :
  Forall P l -> P v -> Forall P (set_item l i v).
Proof.
  intros Hl Hv; revert i; induction Hl as [|x l Hx Hl IH]; intros [|i];
    simpl; auto.
Qed.

Section MarsiliCurty_step.

Import MarsiliCurty.

(** What a step that returns has done: it wrote a sign at one follower
    index. *)
Lemma time_step_cases (st st' : t) (rf : nat) (rg : nat -> nat) :
  time_step st rf rg = Ok st' ->
  exists k sg,
    (N_i st <= k < N st)%nat /\ (k < length (S st))%nat /\ is_sign sg /\
    st' = with_S st (set_item (S st) k sg).
Proof.
  unfold time_step.
  destruct (Nat.leb_spec (N st) (N_i st)) as [|Hlt]; [discriminate|].
  destruct (take (S st) _) as [gc|e]; simpl; [|discriminate].
  destruct (np_sign _) as [sg|] eqn:Hsg; [|discriminate].
  destruct (Nat.ltb_spec (N_i st + rf mod (N st - N_i st)) (length (S st)))
    as [Hk|]; [|discriminate].
  intros [= <-].
  exists (N_i st + rf mod (N st - N_i st))%nat, sg. repeat split; auto.
  - lia.
  - pose proof (Nat.mod_upper_bound rf (N st - N_i st)). lia.
  - eapply np_sign_is_sign; eauto.
Qed.

Lemma time_steps_informed (draws : list (nat * (nat -> nat))) :
  forall (st st' : t),
    time_steps st draws = Ok st' ->
    N_i st' = N_i st /\
    firstn (N_i st) (S st') = firstn (N_i st) (S st).
Proof.
  induction draws as [|[rf rg] draws IH]; intros st st'; simpl.
  - intros [= <-]. auto.
  - destruct (time_step st rf rg) as [st1|e] eqn:Hstep; simpl;
      [|discriminate].
    intros Hrest. destruct (IH _ _ Hrest) as [E1 E2].
    destruct (time_step_cases _ _ _ _ Hstep)
      as (k & sg & [Hk _] & _ & _ & ->).
    simpl in *. split; [exact E1|].
    rewrite E2. apply set_item_firstn. exact Hk.
Qed.

End MarsiliCurty_step.

(** ** The +1/-1 invariant *)

Lemma is_opinion_is_sign (s : Z) : is_opinion s -> is_sign s.
Proof. unfold is_opinion, is_sign. tauto. Qed.

Lemma choice_pm_opinions (draw : nat -> bool) (n : nat) :
  Forall is_opinion (choice_pm draw n).
Proof.
  apply Forall_forall. intros s Hs. apply in_map_iff in Hs.
  destruct Hs as (k & <- & _). unfold is_opinion. destruct (draw k); auto.
Qed.

Lemma choice_p_opinions (p : Q) (draw : nat -> bool) (n : nat) :
  Forall is_opinion (choice_p p draw n).
Proof.
  apply Forall_forall. intros s Hs. apply in_map_iff in Hs.
  destruct Hs as (k & <- & _). unfold is_opinion.
  destruct (Qeq_bool p 1), (Qeq_bool p 0), (draw k); auto.
Qed.

Lemma take_Forall (P : Z -> Prop) (l : list Z) (group : list nat) :
  forall gc, Forall P l -> take l group = Ok gc ->
             Forall P gc /\ length gc = length group.
Proof.
  induction group as [|g group IH]; intros gc Hl; simpl.
  - intros [= <-]. auto.
  - destruct (nth_error l g) as [s|] eqn:Hs; [|discriminate].
    destruct (take l group) as [ss|e]; simpl; [|discriminate].
    intros [= <-]. destruct (IH _ Hl eq_refl) as [H1 H2].
    split; [|simpl; congruence].
    constructor; auto. rewrite Forall_forall in Hl. apply Hl.
    eapply nth_error_In; eauto.
Qed.

(** A sum of an odd number of opinions is odd. *)
Lemma np_sum_parity (l : list Z) :
  Forall is_opinion l -> Z.odd (np_sum l) = Nat.odd (length l).
Proof.
  induction 1 as [|x l Hx Hl IH]; simpl; auto.
  rewrite Nat.odd_succ, <- Nat.negb_odd, <- IH.
  rewrite Z.odd_add. destruct Hx as [-> | ->]; simpl;
    destruct (Z.odd (np_sum l)); reflexivity.
Qed.

Lemma np_div_sign (a b : Z) (sg : Z) :
  (0 < b)%Z -> np_sign (np_div a b) = Some sg -> sg = Z.sgn a.
Proof.
  intros Hb. unfold np_div.
  destruct (Z.eqb_spec b 0) as [|_]; [lia|]. simpl. intros [= <-].
  unfold Qsign. destruct b as [|pb|pb]; try lia.
  simpl. rewrite Z.mul_1_r. reflexivity.
Qed.

Section Opinion_invariant.

(** RFIM: a flip, a sweep and [equilibrate] keep every opinion at +1
    or -1. *)
Lemma rfim_sweep_keeps_opinions (gN : nat) (st st' : RFIM.t) (k : nat) :
  Forall is_opinion (RFIM.S st) ->
  RFIM.sweep gN st = Ok (st', k) ->
  Forall is_opinion (RFIM.S st').
Proof.
  intros Hop Hs. destruct (sweep_loop_only_flips _ _ _ _ _ Hs) as [_ H].
  eapply is_opinion_same_up_to_sign; eauto.
Qed.

Lemma rfim_equilibrate_keeps_opinions (gN fuel : nat) (st st' : RFIM.t) :
  Forall is_opinion (RFIM.S st) ->
  RFIM.equilibrate gN fuel st = Some (Ok st') ->
  Forall is_opinion (RFIM.S st').
Proof.
  intros Hop Hs. destruct (equilibrate_only_flips _ _ _ _ Hs) as [_ H].
  eapply is_opinion_same_up_to_sign; eauto.
Qed.

(** MarsiliCurty: the constructor draws opinions only. *)
Lemma mc_init_opinions (N0 : nat) (z p0 : Q) (m0 : nat)
    (di df : nat -> bool) (st : MarsiliCurty.t) :
  MarsiliCurty.init N0 z p0 m0 di df = Ok st ->
  Forall is_opinion (MarsiliCurty.S st).
Proof.
  unfold MarsiliCurty.init.
  destruct (_ || _); [discriminate|].
  destruct (negb _); [discriminate|].
  intros [= <-]. simpl. apply Forall_app.
  split; [apply choice_p_opinions | apply choice_pm_opinions].
Qed.

(** MarsiliCurty: with an odd group size a poll has no tie, and a step
    keeps every opinion at +1 or -1. *)
Lemma mc_time_step_odd_m_keeps_opinions
    (st st' : MarsiliCurty.t) (rf : nat) (rg : nat -> nat) :
  Nat.odd (MarsiliCurty.m st) = true ->
  Forall is_opinion (MarsiliCurty.S st) ->
  MarsiliCurty.time_step st rf rg = Ok st' ->
  Forall is_opinion (MarsiliCurty.S st').
Proof.
  intros Hodd Hop. unfold MarsiliCurty.time_step.
  destruct (_ <=? _)%nat; [discriminate|].
  destruct (take _ _) as [gc|e] eqn:Htake; simpl; [|discriminate].
  destruct (take_Forall _ _ _ _ Hop Htake) as [Hgc Hlen].
  rewrite length_map, length_seq in Hlen.
  destruct (np_sign _) as [sg|] eqn:Hsg; [|discriminate].
  destruct (_ <? _)%nat; [|discriminate].
  intros [= <-]. simpl. apply Forall_set_item; auto.
  pose proof (np_sum_parity _ Hgc) as Hpar. rewrite Hlen, Hodd in Hpar.
  assert (Hpos : (0 < Z.of_nat (length gc))%Z).
  { rewrite Hlen. destruct (MarsiliCurty.m st); [discriminate|lia]. }
  rewrite (np_div_sign _ _ _ Hpos Hsg).
  unfold is_opinion.
  destruct (np_sum gc) as [|q|q]; simpl in *; auto; discriminate.
Qed.

(** C1, where the code departs from it. [mc_tie] is what
    [MarsiliCurty(2, 0, 1/2, 2)] builds when the followers are drawn as +1
    and -1; a step in which follower 0 polls agents 0 and 1 takes the sign
    of a zero mean, and [S[0]] becomes 0. *)
Theorem time_step_tie_stores_zero :
  MarsiliCurty.init 2 0 (1 # 2) 2 (fun _ => true) (fun k => Nat.eqb k 0)
  = Ok mc_tie /\
  MarsiliCurty.time_step mc_tie 0 (fun k => k)
  = Ok (MarsiliCurty.with_S mc_tie [0; -1]%Z) /\
  nth_error (MarsiliCurty.S (MarsiliCurty.with_S mc_tie [0; -1]%Z)) 0
  = Some 0%Z /\
  ~ Forall is_opinion (MarsiliCurty.S (MarsiliCurty.with_S mc_tie [0; -1]%Z)).
Proof.
  repeat split; try reflexivity.
  simpl. intros H. inversion H as [|? ? [E | E] _]; discriminate.
Qed.

End Opinion_invariant.

(** ** MarsiliCurty: the accuracies *)

Lemma int_of_fraction (n : nat) (z : Q) :
  0 <= z -> z < 1 -> (1 <= n)%nat ->
  (0 <= int_of (inject_Z (Z.of_nat n) * z) < Z.of_nat n)%Z.
Proof.
  intros H0 H1 Hn. destruct z as [zn zd]. unfold int_of, Qle, Qlt in *.
  simpl in *. rewrite Z.mul_1_r in *.
  split.
  - apply Z.quot_pos; lia.
  - apply Z.quot_lt_upper_bound; try lia. nia.
Qed.

Lemma count_pos_le (l : list Z) : (count_pos l <= length l)%nat.
Proof. unfold count_pos. apply filter_length_le. Qed.

Lemma mean_pos_unit_interval (l : list Z) :
  l <> [] -> in_unit_interval (mean_pos l).
Proof.
  intros Hl. unfold mean_pos, np_div.
  assert (Hlen : (0 < Z.of_nat (length l))%Z).
  { destruct l; [congruence | simpl; lia]. }
  destruct (Z.eqb_spec (Z.of_nat (length l)) 0) as [|_]; [lia|]. simpl.
  pose proof (count_pos_le l) as Hle.
  assert (Hq : 0 < inject_Z (Z.of_nat (length l))).
  { change 0 with (inject_Z 0). rewrite <- Zlt_Qlt. exact Hlen. }
  split.
  - apply Qle_shift_div_l; auto. rewrite Qmult_0_l.
    change 0 with (inject_Z 0). rewrite <- Zle_Qle. lia.
  - apply Qle_shift_div_r; auto. rewrite Qmult_1_l.
    rewrite <- Zle_Qle. lia.
Qed.



Section MarsiliCurty_accuracy.

Import MarsiliCurty.

(** What holds in every reachable state *)
Lemma reachable_invariant (N0 : nat) (z p0 : Q) (m0 : nat) (st : t) :
  reachable N0 z p0 m0 st ->
  N st = N0 /\ m st = m0 /\
  Z.of_nat (N_i st) = int_of (inject_Z (Z.of_nat N0) * z) /\
  (N_i st <= N st)%nat /\
  length (S st) = N st /\
  Forall is_sign (S st).
Proof.
  induction 1 as [di df st Hinit | st rf rg st' Hreach IH Hstep].
  - unfold init in Hinit.
    destruct (Z.ltb_spec (int_of (inject_Z (Z.of_nat N0) * z)) 0) as [|H0];
      [discriminate|].
    destruct (Z.ltb_spec (Z.of_nat N0) (int_of (inject_Z (Z.of_nat N0) * z)))
      as [|H1]; [discriminate|].
    simpl in Hinit. destruct (negb _); [discriminate|].
    injection Hinit as <-. simpl.
    repeat split; try lia.
    + unfold choice_p, choice_pm.
      rewrite length_app, !length_map, !length_seq. lia.
    + apply Forall_app. split;
        (eapply Forall_impl; [apply is_opinion_is_sign|]);
        [apply choice_p_opinions | apply choice_pm_opinions].
  - destruct IH as (E1 & Em & E2 & E3 & E4 & E5).
    destruct (time_step_cases _ _ _ _ Hstep)
      as (k & sg & _ & _ & Hsg & ->).
    simpl. rewrite set_item_length.
    repeat split; auto using Forall_set_item.
Qed.


End MarsiliCurty_accuracy.

Lemma mc_three_constructed :
  MarsiliCurty.reachable 3 (1 # 3) (1 # 2) 3 mc_three.
Proof.
  apply MarsiliCurty.reach_init
    with (di := fun _ => true) (df := fun _ => false).
  reflexivity.
Defined.

Lemma mc_three_reachable :
  MarsiliCurty.reachable 3 (1 # 3) (1 # 2) 3
    (MarsiliCurty.with_S mc_three [1; 1; -1]%Z).
Proof.
  apply MarsiliCurty.reach_step
    with (st := mc_three) (rf := 0%nat) (rg := fun _ => 0%nat);
    [exact mc_three_constructed | reflexivity].
Defined.



(** ** MarsiliCurty: a step writes one follower *)

Lemma take_returns (l : list Z) (group : list nat) :
  Forall (fun g => (g < length l)%nat) group ->
  exists gc, take l group = Ok gc /\ length gc = length group.
Proof.
  induction 1 as [|g group Hg Hgroup IH]; simpl; [eauto|].
  destruct (nth_error l g) as [s|] eqn:Hs;
    [|apply nth_error_None in Hs; lia].
  destruct IH as (gc & -> & Hlen). simpl. eexists. split; [reflexivity|].
  simpl. congruence.
Qed.

Section MarsiliCurty_frame.

Import MarsiliCurty.

(** With a follower to pick and somebody to poll, a step returns. *)
Lemma time_step_returns (st : t) (rf : nat) (rg : nat -> nat) :
  (N_i st < N st)%nat -> length (S st) = N st -> (1 <= m st)%nat ->
  exists st', time_step st rf rg = Ok st'.
Proof.
  intros HN Hlen Hm. unfold time_step.
  destruct (Nat.leb_spec (N st) (N_i st)) as [|_]; [lia|].
  destruct (take_returns (S st)
              (map (fun k => (rg k mod N st)%nat) (seq 0 (m st))))
    as (gc & -> & Hgc).
  { apply Forall_forall. intros g Hg. apply in_map_iff in Hg.
    destruct Hg as (k & <- & _). rewrite Hlen.
    apply Nat.mod_upper_bound. lia. }
  simpl. rewrite length_map, length_seq in Hgc. unfold np_div.
  destruct (Z.eqb_spec (Z.of_nat (length gc)) 0) as [|_]; [lia|]. simpl.
  destruct (Nat.ltb_spec (N_i st + rf mod (N st - N_i st)) (length (S st)))
    as [_|Hge]; [eauto|].
  pose proof (Nat.mod_upper_bound rf (N st - N_i st)). lia.
Qed.

(** C4. A call of [time_step] that returns has written [S] at one index
    [k], a follower's ([N_i <= k < N]): every other entry, the length of
    [S] and every other attribute are as before. Consequently the informed
    entries [S[:N_i]] are the same after any sequence of calls. And the
    calls do return in every reachable state of an instance that has a
    follower (valid parameters, [z < 1]). *)
Theorem time_step_writes_one_follower
    (st : t) (rf : nat) (rg : nat -> nat)
    (draws : list (nat * (nat -> nat))) :
  (forall st1,
      time_step st rf rg = Ok st1 ->
      exists k,
        (N_i st <= k < N st)%nat /\
        (forall j, j <> k -> nth_error (S st1) j = nth_error (S st) j) /\
        length (S st1) = length (S st) /\
        st1 = with_S st (S st1)) /\
  (forall st2,
      time_steps st draws = Ok st2 ->
      firstn (N_i st) (S st2) = firstn (N_i st) (S st)) /\
  (forall N0 z p0 m0,
      valid_parameters N0 z p0 m0 -> z < 1 ->
      reachable N0 z p0 m0 st ->
      (exists st1, time_step st rf rg = Ok st1) /\
      (exists st2, time_steps st draws = Ok st2)).
Proof.
  split; [|split].
  - intros st1 Hstep.
    destruct (time_step_cases _ _ _ _ Hstep)
      as (k & sg & Hk & _ & _ & ->). simpl.
    exists k. repeat split; try lia.
    + intros j Hj. apply set_item_other. congruence.
    + apply set_item_length.
  - intros st2 Hsteps. apply (time_steps_informed _ _ _ Hsteps).
  - intros N0 z p0 m0 (HN & [Hz0 _] & _ & Hm) Hz1 Hreach.
    pose proof (int_of_fraction N0 z Hz0 Hz1 HN) as Hfrac.
    assert (Hreturns : forall s rf' rg',
               reachable N0 z p0 m0 s ->
               exists s', time_step s rf' rg' = Ok s').
    { intros s rf' rg' Hs.
      destruct (reachable_invariant _ _ _ _ _ Hs)
        as (E1 & Em & E2 & E3 & E4 & E5).
      apply time_step_returns; lia. }
    split; [now apply Hreturns|].
    revert st Hreach.
    induction draws as [|[rf' rg'] ds IH]; intros s Hs; simpl; [eauto|].
    destruct (Hreturns s rf' rg' Hs) as [s1 Hs1]. rewrite Hs1. simpl.
    apply IH. eapply reach_step; eauto.
Qed.

End MarsiliCurty_frame.

Lemma time_step_writes_one_follower_witness :
  (exists k,
      (1 <= k < 3)%nat /\
      (forall j, j <> k ->
         nth_error [1; 1; -1]%Z j = nth_error (MarsiliCurty.S mc_three) j) /\
      length [1; 1; -1]%Z = length (MarsiliCurty.S mc_three)) /\
  firstn 1 [1; 1; 1]%Z = firstn 1 (MarsiliCurty.S mc_three) /\
  (exists st1,
      MarsiliCurty.time_step mc_three 0 (fun _ => 0%nat) = Ok st1) /\
  (exists st2,
      time_steps mc_three
        [(0%nat, fun _ => 0%nat); (1%nat, fun _ => 0%nat)] = Ok st2).
Proof.
  destruct (time_step_writes_one_follower mc_three 0%nat (fun _ => 0%nat)
              [(0%nat, fun _ => 0%nat); (1%nat, fun _ => 0%nat)])
    as (Hone & Hinformed & Hreturns).
  split; [|split].
  - destruct (Hone (MarsiliCurty.with_S mc_three [1; 1; -1]%Z) eq_refl)
      as (k & Hk & Hother & Hlen & _).
    exists k. auto.
  - apply (Hinformed (MarsiliCurty.with_S mc_three [1; 1; 1]%Z) eq_refl).
  - apply (Hreturns 3%nat (1 # 3) (1 # 2) 3%nat).
    + unfold valid_parameters, Qle, Qlt. simpl. lia.
    + unfold Qlt. simpl. lia.
    + exact mc_three_constructed.
Defined.

(** ** The self-consistency map *)

(** *** Sums *)

Lemma np_sumQ_app (l1 l2 : list Q) :
  np_sumQ (l1 ++ l2) == np_sumQ l1 + np_sumQ l2.
Proof.
  induction l1 as [|a l1 IH]; simpl; [ring|]. rewrite IH. ring.
Qed.

Lemma np_sumQ_map_ext {A : Type} (f g : A -> Q) (l : list A) :
  (forall a, In a l -> f a == g a) ->
  np_sumQ (map f l) == np_sumQ (map g l).
Proof.
  induction l as [|a l IH]; intros H; simpl; [reflexivity|].
  rewrite (H a (or_introl eq_refl)), IH; [reflexivity|].
  intros b Hb. apply H. now right.
Qed.

Lemma np_sumQ_map_linear {A : Type} (c d : Q) (f g : A -> Q) (l : list A) :
  np_sumQ (map (fun a => c * f a + d * g a) l)
  == c * np_sumQ (map f l) + d * np_sumQ (map g l).
Proof.
  induction l as [|a l IH]; simpl; [ring|]. rewrite IH. ring.
Qed.

Lemma np_sumQ_map_scale {A : Type} (c : Q) (f : A -> Q) (l : list A) :
  np_sumQ (map (fun a => c * f a) l) == c * np_sumQ (map f l).
Proof.
  induction l as [|a l IH]; simpl; [ring|]. rewrite IH. ring.
Qed.

(** *** The binomial coefficient *)

Lemma binom_zero (n : nat) : binom n 0 = 1%nat.
Proof. destruct n; reflexivity. Qed.

Lemma binom_gt (n k : nat) : (n < k)%nat -> binom n k = 0%nat.
Proof.
  revert k; induction n as [|n IH]; intros [|k] H; simpl; try lia.
  rewrite !IH by lia. reflexivity.
Qed.

Lemma binom_diag (n : nat) : binom n n = 1%nat.
Proof.
  induction n as [|n IH]; simpl; auto.
  rewrite IH, binom_gt by lia. reflexivity.
Qed.

(** [binom n k] is [n! / (k! (n-k)!)]. *)
Lemma binom_factorial (n : nat) :
  forall k, (k <= n)%nat ->
            (binom n k * (fact k * fact (n - k)) = fact n)%nat.
Proof.
  induction n as [|n IH]; intros [|k] Hk; simpl binom; try lia.
  - simpl. lia.
  - rewrite Nat.sub_0_r. simpl fact at 1. lia.
  - destruct (Nat.eq_dec k n) as [-> | Hne].
    + rewrite binom_diag, binom_gt by lia.
      rewrite Nat.sub_diag. simpl. lia.
    + assert (H1 := IH k ltac:(lia)).
      assert (H2 := IH (S k) ltac:(lia)).
      replace (S n - S k)%nat with (n - k)%nat by lia.
      replace (n - k)%nat with (S (n - S k)) in * by lia.
      change (fact (S n)) with (S n * fact n)%nat.
      change (fact (S k)) with (S k * fact k)%nat in *.
      change (fact (S (n - S k))) with (S (n - S k) * fact (n - S k))%nat in *.
      replace (S n) with (S k + S (n - S k))%nat at 1 by lia.
      nia.
Qed.

(** *** Pascal's rule, term by term and on the tail sums *)

Lemma binomial_term_step (m l : nat) (x : Q) :
  binomial_term (S m) (S l) x
  == x * binomial_term m l x + (1 - x) * binomial_term m (S l) x.
Proof.
  unfold binomial_term. simpl binom. simpl pow.
  rewrite Nat2Z.inj_add, inject_Z_plus.
  replace (S m - S l)%nat with (m - l)%nat by lia.
  destruct (Nat.lt_ge_cases l m) as [Hlt | Hge].
  - replace (m - l)%nat with (S (m - S l)) by lia. simpl pow. ring.
  - rewrite (binom_gt m (S l)) by lia. simpl. ring.
Qed.

Lemma binomial_term_beyond (m : nat) (x : Q) :
  binomial_term m (S m) x == 0.
Proof.
  unfold binomial_term. rewrite binom_gt by lia. simpl. ring.
Qed.

Lemma binomial_tail_shifted (m k : nat) (x : Q) :
  np_sumQ (map (fun l => binomial_term m (S l) x) (range k (m + 1)))
  == binomial_tail m (S k) x.
Proof.
  unfold binomial_tail, range.
  rewrite <- (map_map S (fun l => binomial_term m l x)), seq_shift.
  destruct (Nat.le_gt_cases k m) as [Hle | Hgt].
  - replace (m + 1 - k)%nat with (S (m + 1 - S k)) by lia.
    rewrite seq_S, map_app, np_sumQ_app. simpl.
    replace (S (k + (m + 1 - S k))) with (S m) by lia.
    rewrite binomial_term_beyond. ring.
  - replace (m + 1 - k)%nat with 0%nat by lia.
    replace (m + 1 - S k)%nat with 0%nat by lia. reflexivity.
Qed.

Lemma binomial_tail_step (m k : nat) (x : Q) :
  binomial_tail (S m) (S k) x
  == x * binomial_tail m k x + (1 - x) * binomial_tail m (S k) x.
Proof.
  rewrite <- (binomial_tail_shifted m k x).
  unfold binomial_tail, range.
  replace (S m + 1 - S k)%nat with (m + 1 - k)%nat by lia.
  rewrite <- seq_shift, map_map.
  rewrite (np_sumQ_map_ext _
             (fun l => x * binomial_term m l x
                       + (1 - x) * binomial_term m (S l) x)).
  - apply np_sumQ_map_linear.
  - intros l _. apply binomial_term_step.
Qed.

Lemma binomial_tail_zero (m : nat) (x : Q) :
  binomial_tail m 0 x == binomial_term m 0 x + binomial_tail m 1 x.
Proof.
  unfold binomial_tail, range.
  replace (m + 1 - 0)%nat with (S (m + 1 - 1)) by lia. reflexivity.
Qed.

Lemma binomial_tail_rec (m : nat) (x : Q) :
  forall k, binomial_tail m k x == at_least_rec m k x.
Proof.
  induction m as [|m IH]; intros [|k].
  - unfold binomial_tail, range, binomial_term. simpl. ring.
  - unfold binomial_tail, range. simpl. reflexivity.
  - rewrite binomial_tail_zero, binomial_tail_step. simpl at_least_rec.
    rewrite <- !IH. rewrite (binomial_tail_zero m).
    unfold binomial_term. rewrite !binom_zero, !Nat.sub_0_r.
    change (inject_Z (Z.of_nat 1)) with 1. simpl pow. ring.
  - rewrite binomial_tail_step. simpl at_least_rec.
    rewrite !IH. reflexivity.
Qed.

(** *** The probability of at least [k] positive draws *)

Lemma prob_at_least_step (m k : nat) (x : Q) :
  prob_at_least (S m) (S k) x
  == x * prob_at_least m k x + (1 - x) * prob_at_least m (S k) x.
Proof.
  unfold prob_at_least. simpl outcomes.
  rewrite filter_app, map_app, np_sumQ_app.
  rewrite !filter_map_swap, !map_map. simpl.
  rewrite !np_sumQ_map_scale. reflexivity.
Qed.

Lemma prob_at_least_zero (m : nat) (x : Q) :
  prob_at_least (S m) 0 x
  == x * prob_at_least m 0 x + (1 - x) * prob_at_least m 0 x.
Proof.
  unfold prob_at_least. simpl outcomes.
  rewrite filter_app, map_app, np_sumQ_app.
  rewrite !filter_map_swap, !map_map. simpl.
  rewrite !np_sumQ_map_scale. reflexivity.
Qed.

Lemma prob_at_least_rec (m : nat) (x : Q) :
  forall k, prob_at_least m k x == at_least_rec m k x.
Proof.
  induction m as [|m IH]; intros [|k].
  - unfold prob_at_least. simpl. ring.
  - unfold prob_at_least. simpl. reflexivity.
  - rewrite prob_at_least_zero. simpl. rewrite !IH. reflexivity.
  - rewrite prob_at_least_step. simpl. rewrite !IH. reflexivity.
Qed.

(** *** Monotonicity *)

Lemma at_least_rec_compat (m : nat) (x y : Q) :
  x == y -> forall k, at_least_rec m k x == at_least_rec m k y.
Proof.
  intros Hxy. induction m as [|m IH]; intros [|k]; simpl;
    try reflexivity; rewrite !IH, Hxy; reflexivity.
Qed.

(** Asking for one more success cannot be more likely. *)
Lemma at_least_rec_antitone (m : nat) (x : Q) :
  0 <= x -> x <= 1 ->
  forall k, at_least_rec m (S k) x <= at_least_rec m k x.
Proof.
  intros H0 H1. induction m as [|m IH]; intros k.
  - destruct k; simpl; lra.
  - destruct k as [|k].
    + simpl. pose proof (IH 0%nat). nra.
    + change (x * at_least_rec m (S k) x
              + (1 - x) * at_least_rec m (S (S k)) x
              <= x * at_least_rec m k x + (1 - x) * at_least_rec m (S k) x).
      pose proof (IH k). pose proof (IH (S k)). nra.
Qed.

Lemma at_least_rec_monotone (m : nat) (x y : Q) :
  0 <= x -> x <= y -> y <= 1 ->
  forall k, at_least_rec m k x <= at_least_rec m k y.
Proof.
  intros H0 Hxy H1. induction m as [|m IH]; intros k.
  - destruct k; simpl; lra.
  - destruct k as [|k].
    + simpl. pose proof (IH 0%nat). lra.
    + change (x * at_least_rec m k x + (1 - x) * at_least_rec m (S k) x
              <= y * at_least_rec m k y + (1 - y) * at_least_rec m (S k) y).
      pose proof (IH k) as Ha. pose proof (IH (S k)) as Hb.
      assert (Hy : at_least_rec m (S k) y <= at_least_rec m k y)
        by (apply at_least_rec_antitone; lra).
      set (ax := at_least_rec m k x) in *.
      set (ay := at_least_rec m k y) in *.
      set (bx := at_least_rec m (S k) x) in *.
      set (by_ := at_least_rec m (S k) y) in *.
      assert (H2 : x * ax + (1 - x) * bx <= x * ay + (1 - x) * by_) by nra.
      assert (H3 : 0 <= (y - x) * (ay - by_)) by nra.
      lra.
Qed.

(** *** Rounding up a half *)

Lemma ceil_half_is_ceiling (m : nat) :
  (m <= 2 * ceil_half m < m + 2)%nat.
Proof.
  unfold ceil_half.
  pose proof (Nat.div_mod_eq m 2). pose proof (Nat.mod_upper_bound m 2).
  lia.
Qed.

Lemma floor_div_is_ceil_half (m : nat) : ((m + 1) / 2)%nat = ceil_half m.
Proof.
  pose proof (ceil_half_is_ceiling m).
  pose proof (Nat.div_mod_eq (m + 1) 2).
  pose proof (Nat.mod_upper_bound (m + 1) 2).
  pose proof (Nat.div_mod_eq m 2). pose proof (Nat.mod_upper_bound m 2).
  unfold ceil_half in *. lia.
Qed.

Lemma F_z_is_tail (z p : Q) (m : nat) (q : Q) :
  F_z z p m q = binomial_tail m (ceil_half m) (z * p + (1 - z) * q).
Proof.
  unfold F_z, binomial_tail, binomial_term. cbv zeta.
  rewrite floor_div_is_ceil_half. reflexivity.
Qed.

(** The weights of all the outcomes add up to 1. *)
Lemma prob_at_least_none (m : nat) (x : Q) : prob_at_least m 0 x == 1.
Proof.
  rewrite prob_at_least_rec.
  induction m as [|m IH]; simpl; [reflexivity|]. rewrite IH. ring.
Qed.

(** C5. [F_z(q)] is the sum over [l] from [ceil(m/2)] to [m] of
    [C(m,l) * pi^l * (1-pi)^(m-l)] at [pi = z*p + (1-z)*q], and that sum is
    the probability that at least [ceil(m/2)] of [m] independent
    Bernoulli([pi]) draws are positive. *)
Theorem F_z_is_majority_probability (z p : Q) (m : nat) (q : Q) :
  let pi := z * p + (1 - z) * q in
  F_z z p m q = binomial_tail m (ceil_half m) pi /\
  binomial_tail m (ceil_half m) pi == prob_at_least m (ceil_half m) pi.
Proof.
  cbv zeta. split; [apply F_z_is_tail|].
  rewrite binomial_tail_rec, prob_at_least_rec. reflexivity.
Qed.

(** C8. For [z] and [p] in [0,1], [F_z] is non-decreasing on [0,1]; and
    for [z = 1] its value is the same at every [q], the probability that at
    least [ceil(m/2)] of [m] independent Bernoulli([p]) draws succeed. *)
Theorem F_z_monotone_and_constant_at_z_one
    (z p : Q) (m : nat) (q1 q2 : Q) :
  0 <= z <= 1 -> 0 <= p <= 1 ->
  0 <= q1 -> q1 <= q2 -> q2 <= 1 ->
  F_z z p m q1 <= F_z z p m q2 /\
  (forall qa qb : Q,
      F_z 1 p m qa == F_z 1 p m qb /\
      F_z 1 p m qa == prob_at_least m (ceil_half m) p).
Proof.
  intros [Hz0 Hz1] [Hp0 Hp1] Hq0 Hq12 Hq1. split.
  - rewrite !F_z_is_tail, !binomial_tail_rec.
    apply at_least_rec_monotone; nra.
  - assert (Hconst : forall qa,
               F_z 1 p m qa == prob_at_least m (ceil_half m) p).
    { intros qa. rewrite F_z_is_tail, binomial_tail_rec, prob_at_least_rec.
      apply at_least_rec_compat. ring. }
    intros qa qb. split; [|apply Hconst].
    rewrite (Hconst qa), (Hconst qb). reflexivity.
Qed.

Lemma F_z_monotone_and_constant_at_z_one_witness :
  F_z (3 # 10) (13 # 25) 3 0 <= F_z (3 # 10) (13 # 25) 3 1 /\
  (forall qa qb : Q,
      F_z 1 (13 # 25) 3 qa == F_z 1 (13 # 25) 3 qb /\
      F_z 1 (13 # 25) 3 qa == prob_at_least 3 (ceil_half 3) (13 # 25)).
Proof.
  apply (F_z_monotone_and_constant_at_z_one (3 # 10) (13 # 25) 3 0 1);
    unfold Qle; simpl; lia.
Defined.

(** ** fixed_point *)

Lemma fixed_point_loop_is_iter (f : Q -> Q) (n : nat) :
  forall q_0 q_1,
    fixed_point_loop f n q_0 q_1 = (Nat.iter n f q_0, Nat.iter n f q_1).
Proof.
  induction n as [|n IH]; intros q_0 q_1; [reflexivity|].
  simpl fixed_point_loop. rewrite IH, <- !Nat.iter_succ_r. reflexivity.
Qed.

Lemma bisect_bracket (f : Q -> Q) (a b : Q) :
  (exists e, bisect f a b = Raise e) <-> 0 < f a * f b.
Proof.
  unfold bisect. destruct (Qltb 0 (f a * f b)) eqn:E.
  - apply Qltb_spec in E. split; eauto.
  - split; [intros [e He]; discriminate|].
    intros H. apply Qltb_spec in H. congruence.
Qed.

Section FixedPoint_facts.

Variable brentq : (Q -> Q) -> Q -> Q -> result Q.

(** The contract of the root finder: it raises exactly when the function
    has the same strict sign at both ends of the bracket. *)
Hypothesis brentq_bracket :
  forall f a b, (exists e, brentq f a b = Raise e) <-> 0 < f a * f b.

(** C6. [fixed_point] applies [F_z] [n_its] times to 0 and to 1, giving
    [q_0] and [q_1], and hands [q -> F_z(q) - q] to the root finder on
    [[q_0 + 0.1, q_1 - 0.1]]. It raises exactly when that function has no
    sign change between the two ends, and otherwise returns [q_0], [q_1]
    and the root the finder located. *)
Theorem fixed_point_raises_iff_no_sign_change (z p : Q) (m n_its : nat) :
  let g := fun q => F_z z p m q - q in
  let q_0 := Nat.iter n_its (F_z z p m) 0 in
  let q_1 := Nat.iter n_its (F_z z p m) 1 in
  ((exists e, fixed_point brentq z p m n_its = Raise e) <->
   0 < g (q_0 + (1 # 10)) * g (q_1 - (1 # 10))) /\
  (forall r,
      fixed_point brentq z p m n_its = Ok r ->
      exists q_mid,
        brentq g (q_0 + (1 # 10)) (q_1 - (1 # 10)) = Ok q_mid /\
        r = (q_0, q_1, q_mid)).
Proof.
  cbv zeta. unfold fixed_point. rewrite fixed_point_loop_is_iter.
  set (g := fun q => F_z z p m q - q).
  set (a := Nat.iter n_its (F_z z p m) 0 + (1 # 10)).
  set (b := Nat.iter n_its (F_z z p m) 1 - (1 # 10)).
  pose proof (brentq_bracket g a b) as Hb.
  destruct (brentq g a b) as [q_mid|e]; simpl.
  - split.
    + split; [intros [e He]; discriminate|].
      intros H. apply Hb in H. destruct H; discriminate.
    + intros r [= <-]. eauto.
  - split.
    + split; intros _; [apply Hb|]; eauto.
    + intros r; discriminate.
Qed.

End FixedPoint_facts.

Lemma fixed_point_raises_iff_no_sign_change_witness :
  let g := fun q => F_z 0 (1 # 2) 3 q - q in
  let q_0 := Nat.iter 1 (F_z 0 (1 # 2) 3) 0 in
  let q_1 := Nat.iter 1 (F_z 0 (1 # 2) 3) 1 in
  ((exists e, fixed_point bisect 0 (1 # 2) 3 1 = Raise e) <->
   0 < g (q_0 + (1 # 10)) * g (q_1 - (1 # 10))) /\
  (forall r,
      fixed_point bisect 0 (1 # 2) 3 1 = Ok r ->
      exists q_mid,
        bisect g (q_0 + (1 # 10)) (q_1 - (1 # 10)) = Ok q_mid /\
        r = (q_0, q_1, q_mid)).
Proof.
  apply (fixed_point_raises_iff_no_sign_change bisect bisect_bracket
           0 (1 # 2) 3 1).
Defined.

(** * Further properties of the RFIM class *)

(** ** The mean opinion *)

Lemma np_sum_bound (l : list Z) :
  Forall is_opinion l ->
  (- Z.of_nat (length l) <= np_sum l <= Z.of_nat (length l))%Z.
Proof.
  induction 1 as [|x l Hx Hl IH]; simpl np_sum; simpl length; [lia|].
  destruct Hx as [-> | ->]; lia.
Qed.

(** The sum of the others: at most [len - 1] in absolute value *)
Lemma np_sum_others_bound (l : list Z) :
  forall i s,
    Forall is_opinion l -> nth_error l i = Some s ->
    (- (Z.of_nat (length l) - 1) <= np_sum l - s
     <= Z.of_nat (length l) - 1)%Z.
Proof.
  induction l as [|x l IH]; intros [|i] s Hl Hs; simpl in Hs;
    try discriminate; inversion Hl as [|? ? Hx Hl']; subst.
  - injection Hs as ->. pose proof (np_sum_bound l Hl').
    simpl np_sum. simpl length. lia.
  - pose proof (IH i s Hl' Hs). simpl np_sum. simpl length.
    destruct Hx as [-> | ->]; lia.
Qed.

Lemma Qdiv_bounds (a b : Z) :
  (0 < b)%Z -> (- b <= a <= b)%Z ->
  - (1) <= inject_Z a / inject_Z b <= 1.
Proof.
  intros Hb Ha.
  assert (Hq : 0 < inject_Z b).
  { change 0 with (inject_Z 0). rewrite <- Zlt_Qlt. exact Hb. }
  split.
  - apply Qle_shift_div_l; auto.
    setoid_replace (- (1) * inject_Z b) with (inject_Z (- b))
      by (rewrite inject_Z_opp; ring).
    rewrite <- Zle_Qle. lia.
  - apply Qle_shift_div_r; auto. rewrite Qmult_1_l.
    rewrite <- Zle_Qle. lia.
Qed.

Section RFIM_mean.

Import RFIM.

(** X1. [m()] of an instance whose opinions are +1 or -1 is a number of
    [-1, 1], and it is nan exactly when there is no agent. *)
Theorem mean_opinion_bounds (st : t) :
  Forall is_opinion (S st) ->
  (S st = [] -> m st = NaN) /\
  (S st <> [] -> exists q, m st = Fin q /\ - (1) <= q <= 1).
Proof.
  intros Hop. unfold m. split.
  - intros ->. reflexivity.
  - intros Hne. unfold np_div.
    assert (Hlen : (0 < Z.of_nat (length (S st)))%Z).
    { destruct (S st); [congruence | simpl; lia]. }
    destruct (Z.eqb_spec (Z.of_nat (length (S st))) 0) as [|_]; [lia|].
    eexists. split; [reflexivity|].
    apply Qdiv_bounds; auto. apply np_sum_bound; auto.
Qed.

End RFIM_mean.

Lemma mean_opinion_bounds_witness :
  (RFIM.S rfim_three = [] -> RFIM.m rfim_three = NaN) /\
  (RFIM.S rfim_three <> [] ->
   exists q, RFIM.m rfim_three = Fin q /\ - (1) <= q <= 1).
Proof.
  apply (mean_opinion_bounds rfim_three).
  unfold is_opinion. simpl. repeat constructor; auto.
Defined.

(** ** Two flips in a row *)

Section RFIM_flip_twice.

Import RFIM.

Lemma flip_settles_agent (st st' : t) (i : nat) :
  flip st i = Ok (st', 1%nat) ->
  p st' i = p st i /\ flip st' i = Ok (st', 0%nat).
Proof.
  intros Hf.
  destruct (flip_cases _ _ _ _ Hf)
    as [[_ ?] | (s & x & sg & Hs & Hp & Hsg & Hprod & -> & _)];
    [discriminate|].
  assert (Hi : (i < length (S st))%nat).
  { apply nth_error_Some. congruence. }
  assert (Hp' : p (with_S st (set_item (S st) i (- s)%Z)) i = p st i).
  { unfold p. cbv zeta. simpl. rewrite (set_item_same _ _ _ Hi), Hs.
    rewrite (set_item_sum _ _ _ _ Hs).
    replace (np_sum (S st) - s + - s - - s)%Z with (np_sum (S st) - s)%Z
      by lia.
    reflexivity. }
  split; [exact Hp'|].
  unfold flip. rewrite Hp', Hp. simpl.
  rewrite (set_item_same _ _ _ Hi), Hsg. simpl.
  replace (- s * sg)%Z with 1%Z by lia. reflexivity.
Qed.

(** X2. The local field of agent [i] leaves [S[i]] out, so a flip of
    agent [i] does not change [p(i)]; and an agent that has just flipped
    does not flip back when tried again at once. *)
Theorem flip_does_not_flip_back (st st' : t) (i : nat) :
  flip st i = Ok (st', 1%nat) ->
  p st' i = p st i /\ flip st' i = Ok (st', 0%nat).
Proof. apply flip_settles_agent. Qed.

End RFIM_flip_twice.

Lemma flip_does_not_flip_back_witness :
  RFIM.p (RFIM.with_S rfim_three [1; 1; -1]%Z) 2 = RFIM.p rfim_three 2 /\
  RFIM.flip (RFIM.with_S rfim_three [1; 1; -1]%Z) 2
  = Ok (RFIM.with_S rfim_three [1; 1; -1]%Z, 0%nat).
Proof.
  apply (flip_does_not_flip_back rfim_three
           (RFIM.with_S rfim_three [1; 1; -1]%Z) 2).
  reflexivity.
Defined.

(** ** What a sweep counts *)

Lemma changed_same (a : list Z) (i : nat) : changed a a i = false.
Proof.
  unfold changed. destruct (nth_error a i); auto.
  now rewrite Z.eqb_refl.
Qed.

Section RFIM_sweep_count.

Import RFIM.

Lemma flip_other_entries (st st1 : t) (i r j : nat) :
  flip st i = Ok (st1, r) -> j <> i ->
  nth_error (S st1) j = nth_error (S st) j.
Proof.
  intros Hf Hj.
  destruct (flip_cases _ _ _ _ Hf)
    as [[-> _] | (s & x & sg & _ & _ & _ & _ & -> & _)]; auto.
  simpl. apply set_item_other. congruence.
Qed.

Lemma flip_counts_change (st st1 : t) (i r : nat) :
  flip st i = Ok (st1, r) ->
  r = if changed (S st) (S st1) i then 1%nat else 0%nat.
Proof.
  intros Hf.
  destruct (flip_cases _ _ _ _ Hf)
    as [[-> ->] | (s & x & sg & Hs & _ & _ & Hprod & -> & ->)].
  - now rewrite changed_same.
  - simpl. unfold changed. rewrite Hs.
    rewrite set_item_same by (apply nth_error_Some; congruence).
    destruct (Z.eqb_spec s (- s)) as [E|_]; [|reflexivity].
    exfalso. nia.
Qed.

Lemma sweep_loop_changes (idx : list nat) :
  NoDup idx ->
  forall (st : t) (s : nat) (st' : t) (s' : nat),
    sweep_loop idx st s = Ok (st', s') ->
    (forall j, ~ In j idx -> nth_error (S st') j = nth_error (S st) j) /\
    s' = (s + count_changed (S st) (S st') idx)%nat.
Proof.
  induction 1 as [|i idx Hi Hnd IH]; intros st s st' s'; simpl.
  - intros [= <- <-]. split; [auto | unfold count_changed; simpl; lia].
  - destruct (flip st i) as [[st1 r]|e] eqn:Hf; simpl; [|discriminate].
    intros Hloop. destruct (IH _ _ _ _ Hloop) as [Hout Hcount].
    split.
    + intros j Hj. rewrite Hout by tauto.
      apply (flip_other_entries _ _ _ _ _ Hf). intros ->. tauto.
    + unfold count_changed in *. simpl filter.
      assert (Hi' : changed (S st) (S st') i = changed (S st) (S st1) i).
      { unfold changed. now rewrite (Hout i Hi). }
      assert (Hrest : filter (changed (S st) (S st')) idx
                      = filter (changed (S st1) (S st')) idx).
      { apply filter_ext_in. intros j Hj. unfold changed.
        rewrite (flip_other_entries _ _ _ _ j Hf); auto.
        intros ->. tauto. }
      rewrite Hi', Hrest, Hcount, (flip_counts_change _ _ _ _ Hf).
      destruct (changed (S st) (S st1) i); simpl; lia.
Qed.

(** X3. The number [sweep] returns is the number of opinions that differ
    between the array it was given and the array it leaves, all of them
    below the loop bound; it is at most the loop bound, and the entries
    from the loop bound on are untouched. *)
Theorem sweep_counts_changed_opinions (N_global : nat) (st st' : t)
    (k : nat) :
  sweep N_global st = Ok (st', k) ->
  k = count_changed (S st) (S st') (range 0 N_global) /\
  (k <= N_global)%nat /\
  (forall j, (N_global <= j)%nat ->
             nth_error (S st') j = nth_error (S st) j).
Proof.
  intros Hs. unfold sweep in Hs.
  destruct (sweep_loop_changes (range 0 N_global) (seq_NoDup _ _)
              _ _ _ _ Hs) as [Hout Hcount].
  simpl in Hcount. split; [exact Hcount|]. split.
  - rewrite Hcount. unfold count_changed.
    etransitivity; [apply filter_length_le|].
    unfold range. rewrite length_seq. lia.
  - intros j Hj. apply Hout. unfold range. rewrite in_seq. lia.
Qed.

(** X4. [sweep] and [equilibrate] write nothing but [S]: [J], [F], [N],
    [h] and [delta] are as before, [S] keeps its length, and opinions that
    were +1 or -1 still are. *)
Theorem sweep_and_equilibrate_frame (N_global fuel : nat) (st st1 st2 : t)
    (k : nat) :
  sweep N_global st = Ok (st1, k) ->
  equilibrate N_global fuel st = Some (Ok st2) ->
  (st1 = with_S st (S st1) /\ length (S st1) = length (S st) /\
   (Forall is_opinion (S st) -> Forall is_opinion (S st1))) /\
  (st2 = with_S st (S st2) /\ length (S st2) = length (S st) /\
   (Forall is_opinion (S st) -> Forall is_opinion (S st2))).
Proof.
  intros Hs He.
  destruct (sweep_loop_only_flips _ _ _ _ _ Hs) as [E1 H1].
  destruct (equilibrate_only_flips _ _ _ _ He) as [E2 H2].
  repeat split; auto using same_up_to_sign_length;
    intros Hop; eapply is_opinion_same_up_to_sign; eauto.
Qed.

End RFIM_sweep_count.

Lemma sweep_counts_changed_opinions_witness :
  1%nat = count_changed (RFIM.S rfim_tie) [1; -1]%Z (range 0 2) /\
  (1 <= 2)%nat /\
  (forall j, (2 <= j)%nat ->
             nth_error [1; -1]%Z j = nth_error (RFIM.S rfim_tie) j).
Proof.
  apply (sweep_counts_changed_opinions 2 rfim_tie
           (RFIM.with_S rfim_tie [1; -1]%Z) 1).
  reflexivity.
Defined.

Lemma sweep_and_equilibrate_frame_witness :
  (RFIM.with_S rfim_tie [1; -1]%Z
   = RFIM.with_S rfim_tie [1; -1]%Z /\
   length [1; -1]%Z = length (RFIM.S rfim_tie) /\
   (Forall is_opinion (RFIM.S rfim_tie) -> Forall is_opinion [1; -1]%Z)) /\
  (RFIM.with_S rfim_tie [1; -1]%Z
   = RFIM.with_S rfim_tie [1; -1]%Z /\
   length [1; -1]%Z = length (RFIM.S rfim_tie) /\
   (Forall is_opinion (RFIM.S rfim_tie) -> Forall is_opinion [1; -1]%Z)).
Proof.
  apply (sweep_and_equilibrate_frame 2 2 rfim_tie
           (RFIM.with_S rfim_tie [1; -1]%Z)
           (RFIM.with_S rfim_tie [1; -1]%Z) 1);
    reflexivity.
Defined.

(** ** The state [equilibrate] returns *)

Section RFIM_equilibrium.

Import RFIM.

(** X5. In the state [equilibrate] returns no agent of the loop is at odds
    with its local field: [S[i] * p(i) >= 0], the utility of agent [i] in
    the notebook's words, whenever the field is a number. *)
Theorem equilibrium_agrees_with_local_field
    (N_global fuel : nat) (st st' : t) (i : nat) :
  Forall is_opinion (S st) ->
  equilibrate N_global fuel st = Some (Ok st') ->
  (i < N_global)%nat ->
  exists s x,
    nth_error (S st') i = Some s /\ p st' i = Ok x /\
    (forall q, x = Fin q -> 0 <= inject_Z s * q).
Proof.
  intros Hop He Hi.
  assert (Hfix : flip st' i = Ok (st', 0%nat)).
  { apply (sweep_loop_fixed_flips (range 0 N_global) st' 0%nat).
    - apply (equilibrate_fixed _ _ _ _ He).
    - unfold range. apply in_seq. lia. }
  destruct (equilibrate_only_flips _ _ _ _ He) as [_ Hsame].
  pose proof (is_opinion_same_up_to_sign _ _ Hsame Hop) as Hop'.
  unfold flip in Hfix.
  destruct (nth_error (S st') i) as [s|] eqn:Hs; [|discriminate].
  destruct (p st' i) as [x|e]; [|discriminate].
  exists s, x. repeat split; auto. intros q ->. simpl in Hfix.
  assert (Hs' : is_opinion s).
  { rewrite Forall_forall in Hop'. apply Hop'.
    eapply nth_error_In; eauto. }
  destruct (Qsign_cases q) as [[Hq E] | [[Hq E] | [Hq E]]];
    rewrite E in Hfix; destruct Hs' as [-> | ->]; simpl in Hfix;
    try discriminate;
    change (inject_Z 1) with 1; change (inject_Z (-1)) with (- (1)); lra.
Qed.

(** X6. A field that beats the coupling saturates the population: when
    [|J| < h[i] + F] for every agent of a well-formed instance of at least
    two agents, swept over its whole population, [equilibrate] returns with
    every opinion at +1. *)
Theorem strong_field_saturates (st : t) :
  rfim_well_formed st -> (2 <= N st)%nat ->
  (forall i hi, nth_error (h st) i = Some hi ->
                - (hi + F st) < J st /\ J st < hi + F st) ->
  exists fuel st',
    equilibrate (N st) fuel st = Some (Ok st') /\
    Forall (fun s => s = 1%Z) (S st').
Proof.
  intros Hwf HN Hstrong.
  destruct (equilibrate_returns (N st) st Hwf (le_n _)) as (fuel & st' & He).
  exists fuel, st'. split; [exact He|].
  destruct Hwf as (HlenS & Hlenh & Hop).
  destruct (equilibrate_only_flips _ _ _ _ He) as [E Hsame].
  pose proof (is_opinion_same_up_to_sign _ _ Hsame Hop) as Hop'.
  pose proof (same_up_to_sign_length _ _ Hsame) as Hlen'.
  apply Forall_forall. intros s Hin.
  destruct (In_nth_error _ _ Hin) as [i Hs].
  assert (Hi : (i < N st)%nat).
  { rewrite <- HlenS, <- Hlen'. apply nth_error_Some. congruence. }
  destruct (nth_error (h st) i) as [hi|] eqn:Hh;
    [|apply nth_error_None in Hh; lia].
  assert (Hfix : flip st' i = Ok (st', 0%nat)).
  { apply (sweep_loop_fixed_flips (range 0 (N st)) st' 0%nat).
    - apply (equilibrate_fixed _ _ _ _ He).
    - unfold range. apply in_seq. lia. }
  assert (HN' : (2 <= N st')%nat) by (rewrite E; exact HN).
  assert (Hh' : nth_error (h st') i = Some hi) by (rewrite E; exact Hh).
  unfold flip in Hfix. rewrite Hs, (p_value _ _ _ _ HN' Hs Hh') in Hfix.
  simpl in Hfix.
  assert (Hs' : is_opinion s).
  { rewrite Forall_forall in Hop'. now apply Hop'. }
  pose proof (np_sum_others_bound _ _ _ Hop' Hs) as Hb.
  assert (Hlm : - (1) <= inject_Z (np_sum (S st') - s)
                         / inject_Z (Z.of_nat (N st') - 1) <= 1).
  { apply Qdiv_bounds; [lia|].
    replace (N st') with (length (S st'))
      by (rewrite E; simpl; lia).
    lia. }
  destruct (Hstrong i hi Hh) as [H1 H2].
  assert (HJ : J st' = J st) by (rewrite E; reflexivity).
  assert (HF : F st' = F st) by (rewrite E; reflexivity).
  rewrite HJ, HF in *.
  set (lm := inject_Z (np_sum (S st') - s)
             / inject_Z (Z.of_nat (N st') - 1)) in *.
  assert (Hpos : 0 < hi + F st + J st * lm).
  { destruct (Qlt_le_dec (J st) 0); nra. }
  rewrite (Qsign_of_pos _ Hpos) in Hfix.
  destruct Hs' as [-> | ->]; [reflexivity | discriminate].
Qed.

End RFIM_equilibrium.

Lemma equilibrium_agrees_with_local_field_witness :
  exists s x,
    nth_error (RFIM.S (RFIM.with_S rfim_tie [1; -1]%Z)) 1 = Some s /\
    RFIM.p (RFIM.with_S rfim_tie [1; -1]%Z) 1 = Ok x /\
    (forall q, x = Fin q -> 0 <= inject_Z s * q).
Proof.
  apply (equilibrium_agrees_with_local_field 2 2 rfim_tie
           (RFIM.with_S rfim_tie [1; -1]%Z) 1).
  - unfold is_opinion. simpl. repeat constructor; auto.
  - reflexivity.
  - lia.
Defined.

Lemma strong_field_saturates_witness :
  exists fuel st',
    RFIM.equilibrate (RFIM.N rfim_driven) fuel rfim_driven = Some (Ok st') /\
    Forall (fun s => s = 1%Z) (RFIM.S st').
Proof.
  apply (strong_field_saturates rfim_driven).
  - unfold rfim_well_formed. simpl. repeat split.
    repeat (apply Forall_cons; [unfold is_opinion; lia|]).
    apply Forall_nil.
  - simpl. lia.
  - intros [|[|[|i]]] hi; simpl; [ | | | destruct i; discriminate];
      intros [= <-]; unfold Qlt; simpl; lia.
Defined.

(** ** Without coupling two sweeps are enough *)

Section RFIM_decoupled_sweeps.

Import RFIM.

(** With [J = 0] what [flip] does to agent [i] is read off [S[i]] and
    [h[i] + F]. *)
Lemma flip_decoupled (st : t) (i : nat) (s : Z) (hi : Q) :
  J st == 0 -> (2 <= N st)%nat ->
  nth_error (S st) i = Some s -> nth_error (h st) i = Some hi ->
  flip st i =
  match (s * Qsign (hi + F st))%Z with
  | (-1)%Z => Ok (with_S st (set_item (S st) i (s * -1)%Z), 1%nat)
  | _ => Ok (st, 0%nat)
  end.
Proof.
  intros HJ HN Hs Hh. unfold flip.
  rewrite Hs, (p_value _ _ _ _ HN Hs Hh). simpl.
  rewrite (decoupled_sign _ _ _ HJ). reflexivity.
Qed.

Lemma flip_valid_index (st st1 : t) (i r : nat) :
  flip st i = Ok (st1, r) ->
  exists s hi, nth_error (S st) i = Some s /\ nth_error (h st) i = Some hi.
Proof.
  unfold flip, p. cbv zeta.
  destruct (nth_error (S st) i) as [s|]; [|discriminate].
  destruct (nth_error (h st) i) as [hi|]; [|discriminate]. eauto.
Qed.

Lemma flip_keeps_others_settled (st st1 : t) (i j r : nat) :
  J st == 0 -> (2 <= N st)%nat ->
  flip st j = Ok (st1, r) ->
  flip st i = Ok (st, 0%nat) ->
  flip st1 i = Ok (st1, 0%nat).
Proof.
  intros HJ HN Hfj Hfi.
  destruct (flip_cases _ _ _ _ Hfj)
    as [[-> _] | (sj & x & sg & Hsj & _ & _ & _ & E & ->)]; auto.
  destruct (Nat.eq_dec i j) as [-> | Hij].
  { apply (flip_settles_agent _ _ _ Hfj). }
  destruct (flip_valid_index _ _ _ _ Hfi) as (s & hi & Hs & Hh).
  rewrite (flip_decoupled _ _ _ _ HJ HN Hs Hh) in Hfi.
  assert (Hs1 : nth_error (S st1) i = Some s).
  { rewrite E. simpl. rewrite set_item_other; auto. }
  assert (Hh1 : nth_error (h st1) i = Some hi) by (rewrite E; exact Hh).
  assert (HJ1 : J st1 == 0) by (rewrite E; exact HJ).
  assert (HN1 : (2 <= N st1)%nat) by (rewrite E; exact HN).
  rewrite (flip_decoupled _ _ _ _ HJ1 HN1 Hs1 Hh1).
  replace (F st1) with (F st) by (rewrite E; reflexivity).
  destruct (s * Qsign (hi + F st))%Z as [|q|q]; try reflexivity.
  destruct q; try reflexivity. discriminate.
Qed.

Lemma sweep_loop_settles (idx : list nat) :
  forall (st : t) (s : nat) (st' : t) (s' : nat),
    J st == 0 -> (2 <= N st)%nat ->
    sweep_loop idx st s = Ok (st', s') ->
    (forall i, flip st i = Ok (st, 0%nat) -> flip st' i = Ok (st', 0%nat)) /\
    (forall i, In i idx -> flip st' i = Ok (st', 0%nat)).
Proof.
  induction idx as [|j idx IH]; intros st s st' s' HJ HN; simpl.
  - intros [= <- _]. split; [auto | contradiction].
  - destruct (flip st j) as [[st1 r]|e] eqn:Hf; simpl; [|discriminate].
    intros Hloop.
    assert (E : st1 = with_S st (S st1)).
    { destruct (flip_cases _ _ _ _ Hf)
        as [[E0 _] | (? & ? & ? & _ & _ & _ & _ & E0 & _)]; rewrite E0;
        [symmetry; apply with_S_same | reflexivity]. }
    assert (HJ1 : J st1 == 0) by (rewrite E; exact HJ).
    assert (HN1 : (2 <= N st1)%nat) by (rewrite E; exact HN).
    destruct (IH _ _ _ _ HJ1 HN1 Hloop) as [Hkeep Hin].
    assert (Hj : flip st1 j = Ok (st1, 0%nat)).
    { destruct (flip_cases _ _ _ _ Hf)
        as [[E0 E1] | (? & ? & ? & _ & _ & _ & _ & _ & E1)].
      - rewrite E0, E1 in Hf. rewrite E0. exact Hf.
      - rewrite E1 in Hf. apply (flip_settles_agent _ _ _ Hf). }
    split.
    + intros i Hi. apply Hkeep.
      apply (flip_keeps_others_settled st st1 i j r HJ HN Hf Hi).
    + intros i [<- | Hi]; auto.
Qed.

Lemma sweep_loop_of_settled (idx : list nat) (st : t) (s : nat) :
  (forall i, In i idx -> flip st i = Ok (st, 0%nat)) ->
  sweep_loop idx st s = Ok (st, s).
Proof.
  revert s; induction idx as [|j idx IH]; intros s Hall; simpl; auto.
  rewrite (Hall j (or_introl eq_refl)). simpl. rewrite Nat.add_0_r.
  apply IH. intros i Hi. apply Hall. now right.
Qed.

(** X7. With [J = 0] and at least two agents, the state a first sweep
    leaves is already one that a second sweep leaves alone, so
    [equilibrate] is over after two sweeps at most and returns the state of
    the first. *)
Theorem decoupled_equilibrate_two_sweeps (N_global : nat) (st st1 : t)
    (k : nat) :
  J st == 0 -> (2 <= N st)%nat ->
  sweep N_global st = Ok (st1, k) ->
  sweep N_global st1 = Ok (st1, 0%nat) /\
  equilibrate N_global 2 st = Some (Ok st1).
Proof.
  intros HJ HN Hs.
  assert (Hsecond : sweep N_global st1 = Ok (st1, 0%nat)).
  { apply sweep_loop_of_settled.
    apply (sweep_loop_settles _ _ _ _ _ HJ HN Hs). }
  split; [exact Hsecond|].
  simpl. rewrite Hs. destruct k; simpl; [reflexivity|].
  rewrite Hsecond. reflexivity.
Qed.

End RFIM_decoupled_sweeps.

Lemma decoupled_equilibrate_two_sweeps_witness :
  RFIM.sweep 2 (RFIM.with_S rfim_tie [1; -1]%Z)
  = Ok (RFIM.with_S rfim_tie [1; -1]%Z, 0%nat) /\
  RFIM.equilibrate 2 2 rfim_tie
  = Some (Ok (RFIM.with_S rfim_tie [1; -1]%Z)).
Proof.
  apply (decoupled_equilibrate_two_sweeps 2 rfim_tie
           (RFIM.with_S rfim_tie [1; -1]%Z) 1).
  - reflexivity.
  - simpl. lia.
  - reflexivity.
Defined.

(** ** An avalanche goes one way *)

Lemma Qdiv_le_mono (a b d : Z) :
  (a <= b)%Z -> (0 < d)%Z ->
  inject_Z a / inject_Z d <= inject_Z b / inject_Z d.
Proof.
  intros Hab Hd. unfold Qdiv. apply Qmult_le_compat_r.
  - rewrite <- Zle_Qle. exact Hab.
  - apply Qinv_le_0_compat. change 0 with (inject_Z 0).
    rewrite <- Zle_Qle. lia.
Qed.

Section RFIM_avalanche.

Import RFIM.

(** The instance at rest under its field [F st0], and the lower field
    [F'] the driver then sets. *)
Variable st0 : t.
Variable F' : Q.
Hypothesis coupling_nonneg : 0 <= J st0.
Hypothesis two_agents : (2 <= N st0)%nat.
Hypothesis field_lowered : F' <= F st0.

(** An agent at -1 that rests under [F st0] does not go up under [F']. *)
Lemma no_upward_flip (cur : t) (s : nat) (j : nat) (x : xfloat) :
  cur = with_S (with_F st0 F') (S cur) ->
  np_sum (S cur) = (np_sum (S st0) - 2 * Z.of_nat s)%Z ->
  nth_error (S cur) j = Some (-1)%Z ->
  nth_error (S st0) j = Some (-1)%Z ->
  flip st0 j = Ok (st0, 0%nat) ->
  p cur j = Ok x ->
  np_sign x <> Some 1%Z.
Proof.
  intros E Hsum Hs Hs0 Hrest Hp Hsg.
  destruct (flip_valid_index _ _ _ _ Hrest) as (s0 & hj & _ & Hh).
  assert (HN : (2 <= N cur)%nat) by (rewrite E; exact two_agents).
  assert (Hh' : nth_error (h cur) j = Some hj) by (rewrite E; exact Hh).
  rewrite (p_value _ _ _ _ HN Hs Hh') in Hp. injection Hp as <-.
  simpl in Hsg. injection Hsg as Hsg. apply Qsign_pos in Hsg.
  unfold flip in Hrest.
  rewrite Hs0, (p_value _ _ _ _ two_agents Hs0 Hh) in Hrest.
  simpl in Hrest.
  assert (Hle : J st0 * (inject_Z (np_sum (S cur) - -1)
                         / inject_Z (Z.of_nat (N st0) - 1))
                <= J st0 * (inject_Z (np_sum (S st0) - -1)
                            / inject_Z (Z.of_nat (N st0) - 1))).
  { rewrite !(Qmult_comm (J st0)).
    apply Qmult_le_compat_r; [|exact coupling_nonneg].
    apply Qdiv_le_mono; lia. }
  replace (J cur) with (J st0) in Hsg by (rewrite E; reflexivity).
  replace (F cur) with F' in Hsg by (rewrite E; reflexivity).
  replace (N cur) with (N st0) in Hsg by (rewrite E; reflexivity).
  set (pv0 := hj + F st0
              + J st0 * (inject_Z (np_sum (S st0) - -1)
                         / inject_Z (Z.of_nat (N st0) - 1))) in *.
  assert (Hpos : 0 < pv0) by (unfold pv0; lra).
  rewrite (Qsign_of_pos _ Hpos) in Hrest. discriminate.
Qed.

Lemma sweep_loop_one_way (idx : list nat) :
  NoDup idx ->
  (forall i, In i idx -> flip st0 i = Ok (st0, 0%nat)) ->
  forall (cur : t) (s : nat) (st' : t) (s' : nat),
    one_way st0 F' idx cur s ->
    sweep_loop idx cur s = Ok (st', s') ->
    one_way st0 F' [] st' s'.
Proof.
  induction 1 as [|j idx Hj Hnd IH]; intros Hrest cur s st' s' Hinv; simpl.
  - intros [= <- <-]. exact Hinv.
  - destruct (flip cur j) as [[cur1 r]|e] eqn:Hf; simpl; [|discriminate].
    apply IH; [intros i Hi; apply Hrest; now right|].
    destruct Hinv as (E & Hidx & Hsum & Hall).
    destruct (flip_cases _ _ _ _ Hf)
      as [[-> ->] | (sj & x & sg & Hs & Hp & Hsg & Hprod & E1 & ->)].
    + rewrite Nat.add_0_r. repeat split; auto.
      intros i Hi. apply Hidx. now right.
    + assert (Hs0 : nth_error (S st0) j = Some sj).
      { rewrite <- (Hidx j (or_introl eq_refl)). exact Hs. }
      assert (Hup : sj = 1%Z).
      { destruct (product_minus_one _ _ Hprod) as [[-> _] | [-> ->]]; auto.
        exfalso.
        apply (no_upward_flip cur s j x E Hsum Hs Hs0
                 (Hrest j (or_introl eq_refl)) Hp Hsg). }
      subst sj. unfold one_way. rewrite E1. cbn [S with_S].
      assert (Hlt : (j < length (S cur))%nat)
        by (apply nth_error_Some; congruence).
      repeat split.
      * rewrite E at 1. reflexivity.
      * intros i Hi. rewrite set_item_other by (intros ->; tauto).
        apply Hidx. now right.
      * rewrite (set_item_sum _ _ _ _ Hs), Hsum. lia.
      * intros i. destruct (Nat.eq_dec i j) as [-> | Hij].
        -- right. split; [exact Hs0|]. now apply set_item_same.
        -- rewrite set_item_other by congruence. apply Hall.
Qed.

(** X8. An avalanche goes one way. Take an instance with [J >= 0] and at
    least two agents on which a sweep flips nobody, lower the field, and
    sweep once, as the avalanche cell does: every opinion that changes goes
    from +1 to -1, and the sum of the opinions drops by twice the number
    the sweep returns. *)
Theorem avalanche_flips_downwards (N_global : nat) (st' : t) (k : nat) :
  sweep N_global st0 = Ok (st0, 0%nat) ->
  sweep N_global (with_F st0 F') = Ok (st', k) ->
  np_sum (S st') = (np_sum (S st0) - 2 * Z.of_nat k)%Z /\
  (forall i, nth_error (S st') i = nth_error (S st0) i \/
             (nth_error (S st0) i = Some 1%Z /\
              nth_error (S st') i = Some (-1)%Z)).
Proof.
  intros Hrest Hs.
  destruct (sweep_loop_one_way (range 0 N_global) (seq_NoDup _ _)
              (sweep_loop_fixed_flips _ _ _ Hrest)
              (with_F st0 F') 0%nat st' k) as (_ & _ & Hsum & Hall).
  - repeat split; auto. simpl. lia.
  - exact Hs.
  - split; assumption.
Qed.

End RFIM_avalanche.

Lemma avalanche_flips_downwards_witness :
  np_sum [1; -1; -1]%Z = (np_sum (RFIM.S rfim_rest) - 2 * Z.of_nat 2)%Z /\
  (forall i, nth_error [1; -1; -1]%Z i = nth_error (RFIM.S rfim_rest) i \/
             (nth_error (RFIM.S rfim_rest) i = Some 1%Z /\
              nth_error [1; -1; -1]%Z i = Some (-1)%Z)).
Proof.
  apply (avalanche_flips_downwards rfim_rest (- (2)))
    with (N_global := 3%nat)
         (st' := RFIM.with_S (RFIM.with_F rfim_rest (- (2))) [1; -1; -1]%Z)
         (k := 2%nat).
  - unfold Qle. simpl. lia.
  - simpl. lia.
  - unfold Qle. simpl. lia.
  - reflexivity.
  - reflexivity.
Defined.

(** ** The constructor *)

(** X9. [RFIM(J, F, N, delta)] with [delta >= 0] builds an instance that
    holds [J], [F], [N] and [delta], [N] opinions that are +1 or -1 and [N]
    fields, all of them zero when [delta = 0]; a negative [delta] is
    refused with [ValueError]. *)
Theorem rfim_init_builds_instance (J0 F0 : Q) (N0 : nat) (delta0 : Q)
    (draw_S : nat -> bool) (draw_h : nat -> Q) :
  (delta0 < 0 ->
   RFIM.init J0 F0 N0 delta0 draw_S draw_h = Raise ValueError) /\
  (0 <= delta0 ->
   exists st,
     RFIM.init J0 F0 N0 delta0 draw_S draw_h = Ok st /\
     rfim_well_formed st /\
     RFIM.J st = J0 /\ RFIM.F st = F0 /\ RFIM.N st = N0 /\
     RFIM.delta st = delta0 /\
     (delta0 == 0 -> Forall (fun x => x == 0) (RFIM.h st))).
Proof.
  split.
  - intros Hneg. unfold RFIM.init.
    destruct (Qle_bool 0 delta0) eqn:E; [|reflexivity].
    apply Qle_bool_iff in E. lra.
  - intros Hpos.
    destruct (RFIM.init J0 F0 N0 delta0 draw_S draw_h) as [st|e] eqn:Hinit.
    + exists st. split; [reflexivity|].
      split; [eapply init_well_formed; eauto|].
      unfold RFIM.init in Hinit.
      destruct (Qle_bool 0 delta0); [|discriminate].
      injection Hinit as <-. simpl. repeat split.
      intros Hz. apply Forall_forall. intros x Hx.
      apply in_map_iff in Hx. destruct Hx as (k & <- & _).
      apply Qeq_bool_iff in Hz. rewrite Hz. reflexivity.
    + exfalso. unfold RFIM.init in Hinit.
      apply Qle_bool_iff in Hpos. rewrite Hpos in Hinit. discriminate.
Qed.

Lemma rfim_init_builds_instance_witness :
  (-(1) < 0 ->
   RFIM.init 1 15 3 (-(1)) (fun _ => true) (fun _ => 0)
   = Raise ValueError) /\
  (0 <= 12 # 10 ->
   exists st,
     RFIM.init 1 15 3 (12 # 10) (fun _ => true) (fun _ => 1 # 3) = Ok st /\
     rfim_well_formed st /\
     RFIM.J st = 1 /\ RFIM.F st = 15 /\ RFIM.N st = 3%nat /\
     RFIM.delta st = 12 # 10 /\
     (12 # 10 == 0 -> Forall (fun x => x == 0) (RFIM.h st))).
Proof.
  split.
  - apply (rfim_init_builds_instance 1 15 3 (-(1))
             (fun _ => true) (fun _ => 0)).
  - apply (rfim_init_builds_instance 1 15 3 (12 # 10)
             (fun _ => true) (fun _ => 1 # 3)).
Defined.

(** * Further properties of the MarsiliCurty class *)

(** ** The constructor *)



Section MarsiliCurty_init.

Import MarsiliCurty.


End MarsiliCurty_init.


(** ** Steps and accuracies *)

Lemma np_div_value (a b : Z) (q : Q) :
  np_div a b = Fin q -> (b <> 0)%Z /\ q * inject_Z b == inject_Z a.
Proof.
  unfold np_div. destruct (Z.eqb_spec b 0) as [|Hb].
  - destruct (a =? 0)%Z; discriminate.
  - intros [= <-]. split; auto. field.
    unfold Qeq. simpl. lia.
Qed.

Lemma count_pos_app (l1 l2 : list Z) :
  count_pos (l1 ++ l2) = (count_pos l1 + count_pos l2)%nat.
Proof. unfold count_pos. now rewrite filter_app, length_app. Qed.

Lemma set_item_id (l : list Z) (i : nat) (v : Z) :
  nth_error l i = Some v -> set_item l i v = l.
Proof.
  revert i; induction l as [|x l IH]; intros [|i] H; simpl in *;
    try discriminate.
  - injection H as ->. reflexivity.
  - f_equal. now apply IH.
Qed.

Lemma count_pos_set_item (l : list Z) (i : nat) (v : Z) :
  (count_pos (set_item l i v) <= count_pos l + 1 /\
   count_pos l <= count_pos (set_item l i v) + 1)%nat.
Proof.
  unfold count_pos.
  revert i; induction l as [|x l IH]; intros [|i]; simpl; try lia.
  - destruct (0 <? v)%Z, (0 <? x)%Z; simpl; lia.
  - specialize (IH i). destruct (0 <? x)%Z; simpl; lia.
Qed.

Lemma count_pos_cons (x : Z) (l : list Z) :
  count_pos (x :: l)
  = ((if (0 <? x)%Z then 1 else 0) + count_pos l)%nat.
Proof. unfold count_pos. simpl. destruct (0 <? x)%Z; reflexivity. Qed.

(** Among opinions the sum is the lead of the +1 over the -1. *)
Lemma np_sum_count_pos (l : list Z) :
  Forall is_opinion l ->
  np_sum l = (2 * Z.of_nat (count_pos l) - Z.of_nat (length l))%Z.
Proof.
  induction 1 as [|x l Hx Hl IH]; [reflexivity|].
  rewrite count_pos_cons. change (np_sum (x :: l)) with (x + np_sum l)%Z.
  change (length (x :: l)) with (Datatypes.S (length l)).
  rewrite IH. destruct Hx as [-> | ->].
  - change (0 <? 1)%Z with true. cbv iota. lia.
  - change (0 <? -1)%Z with false. cbv iota. lia.
Qed.

Lemma take_length (l : list Z) (group : list nat) (gc : list Z) :
  take l group = Ok gc -> length gc = length group.
Proof.
  intros Ht. apply (take_Forall (fun _ => True) l group gc); auto.
  apply Forall_forall. auto.
Qed.

Lemma take_all_same (c : Z) (l : list Z) (group : list nat) :
  forall gc, Forall (fun s => s = c) l -> take l group = Ok gc ->
             np_sum gc = (c * Z.of_nat (length gc))%Z.
Proof.
  intros gc Hl Ht. destruct (take_Forall _ _ _ _ Hl Ht) as [Hgc _].
  clear Ht. induction Hgc as [|x gc Hx Hgc IH].
  - simpl. lia.
  - change (np_sum (x :: gc)) with (x + np_sum gc)%Z.
    change (length (x :: gc)) with (Datatypes.S (length gc)).
    rewrite IH, Hx. lia.
Qed.

Section MarsiliCurty_more.

Import MarsiliCurty.

Lemma mc_with_S_same (st : t) : with_S st (S st) = st.
Proof. destruct st; reflexivity. Qed.

(** The group a step polls and what it writes *)
Lemma time_step_poll (st st' : t) (rf : nat) (rg : nat -> nat) :
  time_step st rf rg = Ok st' ->
  exists k gc,
    take (S st) (map (fun j => (rg j mod N st)%nat) (seq 0 (m st))) = Ok gc /\
    length gc = m st /\ (1 <= m st)%nat /\
    (N_i st <= k < N st)%nat /\ (k < length (S st))%nat /\
    st' = with_S st (set_item (S st) k (Z.sgn (np_sum gc))).
Proof.
  unfold time_step.
  destruct (Nat.leb_spec (N st) (N_i st)) as [|Hlt]; [discriminate|].
  destruct (take (S st) _) as [gc|e] eqn:Htake; simpl; [|discriminate].
  pose proof (take_length _ _ _ Htake) as Hlen.
  rewrite length_map, length_seq in Hlen.
  destruct (np_sign _) as [sg|] eqn:Hsg; [|discriminate].
  destruct (Nat.ltb_spec (N_i st + rf mod (N st - N_i st)) (length (S st)))
    as [Hk|]; [|discriminate].
  intros [= <-].
  assert (Hm : (1 <= m st)%nat).
  { destruct (m st); [|lia]. destruct gc; [|discriminate].
    simpl in Hsg. discriminate. }
  assert (Hpos : (0 < Z.of_nat (length gc))%Z) by lia.
  rewrite (np_div_sign _ _ _ Hpos Hsg).
  exists (N_i st + rf mod (N st - N_i st))%nat, gc.
  repeat split; auto; try lia.
  pose proof (Nat.mod_upper_bound rf (N st - N_i st)). lia.
Qed.

(** X11. The accuracy of the informed agents does not move: after any
    sequence of calls of [time_step], [compute_informed] returns what it
    returned before. *)
Theorem compute_informed_is_constant (st st' : t)
    (draws : list (nat * (nat -> nat))) :
  time_steps st draws = Ok st' ->
  compute_informed st' = compute_informed st.
Proof.
  intros Hsteps. destruct (time_steps_informed _ _ _ Hsteps) as [E1 E2].
  unfold compute_informed. cbv zeta. rewrite E1, E2. reflexivity.
Qed.

(** X12. The three accuracies are tied: in a reachable state
    [N * compute_pi = N_i * compute_informed + N_f * compute_q], whenever
    the three are numbers; and [N_i + N_f = N]. *)
Theorem accuracies_decompose (N0 : nat) (z p0 : Q) (m0 : nat) (st : t)
    (pi qi q : Q) :
  reachable N0 z p0 m0 st ->
  compute_pi st = Fin pi ->
  compute_informed st = Fin qi ->
  compute_q st = Fin q ->
  (N_i st + N_f st = N st)%nat /\
  pi * inject_Z (Z.of_nat (N st))
  == qi * inject_Z (Z.of_nat (N_i st)) + q * inject_Z (Z.of_nat (N_f st)).
Proof.
  intros Hreach Hpi Hqi Hq.
  destruct (reachable_invariant _ _ _ _ _ Hreach)
    as (E1 & _ & _ & E3 & E4 & _).
  assert (Hf : (N_i st + N_f st = N st)%nat).
  { clear -Hreach. induction Hreach as [di df st Hinit | st rf rg st' _ IH Hs].
    - unfold init in Hinit.
      destruct (Z.ltb_spec (int_of (inject_Z (Z.of_nat N0) * z)) 0)
        as [|H0]; [discriminate|].
      destruct (Z.ltb_spec (Z.of_nat N0)
                  (int_of (inject_Z (Z.of_nat N0) * z))) as [|H1];
        [discriminate|].
      simpl in Hinit. destruct (negb _); [discriminate|].
      injection Hinit as <-. simpl. lia.
    - destruct (time_step_cases _ _ _ _ Hs) as (k & sg & _ & _ & _ & ->).
      exact IH. }
  split; [exact Hf|].
  unfold compute_pi, compute_informed, compute_q, mean_pos in *.
  cbv zeta in *.
  destruct (np_div_value _ _ _ Hpi) as [_ Epi].
  destruct (np_div_value _ _ _ Hqi) as [_ Eqi].
  destruct (np_div_value _ _ _ Hq) as [_ Eq].
  rewrite length_firstn in Eqi. rewrite length_skipn in Eq.
  rewrite E4 in Epi, Eqi, Eq.
  rewrite Nat.min_l in Eqi by lia.
  replace (N st - N_i st)%nat with (N_f st) in Eq by lia.
  rewrite Epi, Eqi, Eq, <- inject_Z_plus, <- Nat2Z.inj_add.
  rewrite <- count_pos_app, firstn_skipn. reflexivity.
Qed.

(** X13. With an odd group size no poll is tied: in every reachable state
    every entry of [S] is +1 or -1. *)
Theorem odd_m_keeps_opinions (N0 : nat) (z p0 : Q) (m0 : nat) (st : t) :
  Nat.odd m0 = true ->
  reachable N0 z p0 m0 st ->
  Forall is_opinion (S st).
Proof.
  intros Hodd Hreach.
  induction Hreach as [di df st Hinit | st rf rg st' Hreach IH Hstep].
  - eapply mc_init_opinions; eauto.
  - destruct (reachable_invariant _ _ _ _ _ Hreach) as (_ & Em & _).
    apply (mc_time_step_odd_m_keeps_opinions st st' rf rg);
      [rewrite Em; exact Hodd | exact IH | exact Hstep].
Qed.

(** X14. A step writes the opinion of the majority of the polled group:
    among opinions, +1 when more than half of the [m] polled agents are at
    +1, -1 when fewer than half are, and 0 when exactly half are. *)
Theorem time_step_writes_majority (st st' : t) (rf : nat)
    (rg : nat -> nat) :
  Forall is_opinion (S st) ->
  time_step st rf rg = Ok st' ->
  exists k gc v,
    take (S st) (map (fun j => (rg j mod N st)%nat) (seq 0 (m st))) = Ok gc /\
    (N_i st <= k < N st)%nat /\
    nth_error (S st') k = Some v /\
    ((m st < 2 * count_pos gc)%nat -> v = 1%Z) /\
    ((2 * count_pos gc < m st)%nat -> v = (-1)%Z) /\
    ((2 * count_pos gc = m st)%nat -> v = 0%Z).
Proof.
  intros Hop Hstep.
  destruct (time_step_poll _ _ _ _ Hstep)
    as (k & gc & Htake & Hlen & Hm & Hk & Hk' & ->).
  destruct (take_Forall _ _ _ _ Hop Htake) as [Hgc _].
  pose proof (np_sum_count_pos _ Hgc) as Hsum. rewrite Hlen in Hsum.
  exists k, gc, (Z.sgn (np_sum gc)). simpl.
  rewrite (set_item_same _ _ _ Hk').
  split; [exact Htake|]. split; [exact Hk|]. split; [reflexivity|].
  rewrite Hsum. split; [|split]; intros Hc.
  - apply Z.sgn_pos. lia.
  - apply Z.sgn_neg. lia.
  - replace (2 * Z.of_nat (count_pos gc) - Z.of_nat (m st))%Z with 0%Z
      by lia.
    reflexivity.
Qed.

(** X15. Consensus is absorbing: when every agent holds the same opinion
    [c], a call of [time_step] that returns leaves the instance as it
    was. *)
Theorem consensus_is_absorbing (st st' : t) (c : Z) (rf : nat)
    (rg : nat -> nat) :
  is_opinion c ->
  Forall (fun s => s = c) (S st) ->
  time_step st rf rg = Ok st' ->
  st' = st.
Proof.
  intros Hc Hall Hstep.
  destruct (time_step_poll _ _ _ _ Hstep)
    as (k & gc & Htake & Hlen & Hm & Hk & Hk' & ->).
  rewrite (take_all_same _ _ _ _ Hall Htake), Hlen.
  assert (Hsg : Z.sgn (c * Z.of_nat (m st)) = c).
  { destruct Hc as [-> | ->]; [apply Z.sgn_pos | apply Z.sgn_neg]; lia. }
  rewrite Hsg, set_item_id; [apply mc_with_S_same|].
  destruct (nth_error (S st) k) as [s|] eqn:Hs;
    [|apply nth_error_None in Hs; lia].
  rewrite Forall_forall in Hall. f_equal. apply Hall.
  eapply nth_error_In; eauto.
Qed.

(** X16. A step moves the number of agents at +1 by one at most, so
    [compute_q] moves by [1 / N_f] at most and [compute_pi] by [1 / N]. *)
Theorem time_step_moves_one_opinion (st st' : t) (rf : nat)
    (rg : nat -> nat) :
  time_step st rf rg = Ok st' ->
  (count_pos (S st') <= count_pos (S st) + 1)%nat /\
  (count_pos (S st) <= count_pos (S st') + 1)%nat /\
  (count_pos (skipn (N_i st') (S st'))
   <= count_pos (skipn (N_i st) (S st)) + 1)%nat /\
  (count_pos (skipn (N_i st) (S st))
   <= count_pos (skipn (N_i st') (S st')) + 1)%nat /\
  length (S st') = length (S st) /\ N_i st' = N_i st.
Proof.
  intros Hstep.
  destruct (time_step_cases _ _ _ _ Hstep)
    as (k & sg & Hk & Hk' & _ & ->). simpl.
  pose proof (count_pos_set_item (S st) k sg) as H1.
  rewrite set_item_length.
  assert (Hinf : firstn (N_i st) (set_item (S st) k sg)
                 = firstn (N_i st) (S st))
    by (apply set_item_firstn; lia).
  pose proof (count_pos_app (firstn (N_i st) (S st))
                (skipn (N_i st) (S st))) as H2.
  pose proof (count_pos_app (firstn (N_i st) (set_item (S st) k sg))
                (skipn (N_i st) (set_item (S st) k sg))) as H3.
  rewrite !firstn_skipn in *. rewrite Hinf in H3.
  repeat split; lia.
Qed.

End MarsiliCurty_more.

Lemma compute_informed_is_constant_witness :
  MarsiliCurty.compute_informed (MarsiliCurty.with_S mc_three [1; 1; 1]%Z)
  = MarsiliCurty.compute_informed mc_three.
Proof.
  apply (compute_informed_is_constant mc_three
           (MarsiliCurty.with_S mc_three [1; 1; 1]%Z)
           [(0%nat, fun _ => 0%nat); (1%nat, fun _ => 0%nat)]).
  reflexivity.
Defined.

Lemma accuracies_decompose_witness :
  (MarsiliCurty.N_i mc_three + MarsiliCurty.N_f mc_three
   = MarsiliCurty.N mc_three)%nat /\
  (inject_Z 1 / inject_Z 3) * inject_Z (Z.of_nat (MarsiliCurty.N mc_three))
  == (inject_Z 1 / inject_Z 1)
     * inject_Z (Z.of_nat (MarsiliCurty.N_i mc_three))
     + (inject_Z 0 / inject_Z 2)
       * inject_Z (Z.of_nat (MarsiliCurty.N_f mc_three)).
Proof.
  apply (accuracies_decompose 3 (1 # 3) (1 # 2) 3 mc_three).
  - exact mc_three_constructed.
  - reflexivity.
  - reflexivity.
  - reflexivity.
Defined.

Lemma odd_m_keeps_opinions_witness :
  Forall is_opinion
    (MarsiliCurty.S (MarsiliCurty.with_S mc_three [1; 1; -1]%Z)).
Proof.
  apply (odd_m_keeps_opinions 3 (1 # 3) (1 # 2) 3).
  - reflexivity.
  - exact mc_three_reachable.
Defined.

Lemma mc_three_opinions : Forall is_opinion (MarsiliCurty.S mc_three).
Proof.
  simpl. repeat (apply Forall_cons; [unfold is_opinion; lia|]).
  apply Forall_nil.
Defined.

Lemma time_step_writes_majority_witness :
  exists k gc v,
    take (MarsiliCurty.S mc_three)
      (map (fun j => ((fun i => i) j mod MarsiliCurty.N mc_three)%nat)
           (seq 0 (MarsiliCurty.m mc_three))) = Ok gc /\
    (MarsiliCurty.N_i mc_three <= k < MarsiliCurty.N mc_three)%nat /\
    nth_error [1; -1; -1]%Z k = Some v /\
    ((MarsiliCurty.m mc_three < 2 * count_pos gc)%nat -> v = 1%Z) /\
    ((2 * count_pos gc < MarsiliCurty.m mc_three)%nat -> v = (-1)%Z) /\
    ((2 * count_pos gc = MarsiliCurty.m mc_three)%nat -> v = 0%Z).
Proof.
  apply (time_step_writes_majority mc_three
           (MarsiliCurty.with_S mc_three [1; -1; -1]%Z) 0 (fun i => i)).
  - exact mc_three_opinions.
  - reflexivity.
Defined.

Lemma consensus_is_absorbing_witness :
  MarsiliCurty.with_S mc_three [1; 1; 1]%Z
  = MarsiliCurty.with_S mc_three [1; 1; 1]%Z.
Proof.
  apply (consensus_is_absorbing
           (MarsiliCurty.with_S mc_three [1; 1; 1]%Z)
           (MarsiliCurty.with_S mc_three [1; 1; 1]%Z) 1 1 (fun i => i)).
  - unfold is_opinion. lia.
  - simpl. repeat constructor.
  - reflexivity.
Defined.

Lemma time_step_moves_one_opinion_witness :
  (count_pos [1; 1; -1]%Z <= count_pos (MarsiliCurty.S mc_three) + 1)%nat /\
  (count_pos (MarsiliCurty.S mc_three) <= count_pos [1; 1; -1]%Z + 1)%nat /\
  (count_pos (skipn 1 [1; 1; -1]%Z)
   <= count_pos (skipn 1 (MarsiliCurty.S mc_three)) + 1)%nat /\
  (count_pos (skipn 1 (MarsiliCurty.S mc_three))
   <= count_pos (skipn 1 [1; 1; -1]%Z) + 1)%nat /\
  length [1; 1; -1]%Z = length (MarsiliCurty.S mc_three) /\
  1%nat = MarsiliCurty.N_i mc_three.
Proof.
  apply (time_step_moves_one_opinion mc_three
           (MarsiliCurty.with_S mc_three [1; 1; -1]%Z) 0 (fun _ => 0%nat)).
  reflexivity.
Defined.

(** ** iterate *)

Lemma time_steps_app (ds1 ds2 : list (nat * (nat -> nat))) :
  forall st,
    time_steps st (ds1 ++ ds2)
    = (st1 <- time_steps st ds1 ;; time_steps st1 ds2).
Proof.
  induction ds1 as [|[rf rg] ds1 IH]; intros st; simpl; auto.
  destruct (MarsiliCurty.time_step st rf rg); simpl; auto.
Qed.

Section MarsiliCurty_iterate.

Import MarsiliCurty.

Lemma iterate_loop_app (ts1 ts2 : list nat)
    (draws : nat -> nat * (nat -> nat)) :
  forall st q pi,
    iterate_loop (ts1 ++ ts2) draws st q pi
    = ('(st1, (q1, pi1)) <- iterate_loop ts1 draws st q pi ;;
       iterate_loop ts2 draws st1 q1 pi1).
Proof.
  induction ts1 as [|t0 ts1 IH]; intros st q pi; simpl; auto.
  destruct (time_step st _ _); simpl; auto.
Qed.

(** In every reachable state of an instance with a follower the two
    accuracies are numbers of [0,1] and a step returns. *)
Lemma reachable_step_and_accuracies (N0 : nat) (z p0 : Q) (m0 : nat)
    (st : t) :
  valid_parameters N0 z p0 m0 -> z < 1 ->
  reachable N0 z p0 m0 st ->
  in_unit_interval (compute_q st) /\ in_unit_interval (compute_pi st) /\
  (forall rf rg, exists st', time_step st rf rg = Ok st').
Proof.
  intros (HN & [Hz0 _] & _ & Hm) Hz1 Hreach.
  destruct (reachable_invariant _ _ _ _ _ Hreach)
    as (E1 & Em & E2 & E3 & E4 & E5).
  pose proof (int_of_fraction N0 z Hz0 Hz1 HN) as Hfrac.
  split; [|split].
  - apply mean_pos_unit_interval. intros Hnil.
    apply (f_equal (@length Z)) in Hnil.
    rewrite length_skipn in Hnil. simpl in Hnil. lia.
  - apply mean_pos_unit_interval. intros Hnil.
    rewrite Hnil in E4. simpl in E4. lia.
  - intros rf rg. apply time_step_returns; lia.
Qed.

Lemma iterate_loop_records (draws : nat -> nat * (nat -> nat)) (st : t)
    (T : nat) :
  forall st' q pi,
    iterate_loop (seq 0 T) draws st [] [] = Ok (st', (q, pi)) ->
    length q = T /\ length pi = T /\
    time_steps st (map draws (seq 0 T)) = Ok st' /\
    (forall t, (t < T)%nat ->
       exists st_t,
         time_steps st (map draws (seq 0 t)) = Ok st_t /\
         nth_error q t = Some (compute_q st_t) /\
         nth_error pi t = Some (compute_pi st_t)).
Proof.
  induction T as [|T IH]; intros st' q pi.
  - simpl. intros [= <- <- <-]. repeat split; auto. intros t Ht. lia.
  - rewrite seq_S, iterate_loop_app. simpl.
    destruct (iterate_loop (seq 0 T) draws st [] [])
      as [[st1 [q1 pi1]]|e] eqn:Hloop; simpl; [|discriminate].
    destruct (IH _ _ _ eq_refl) as (Hq1 & Hpi1 & Hsteps & Hrec).
    destruct (time_step st1 (fst (draws T)) (snd (draws T)))
      as [st2|e] eqn:Hstep; simpl; [|discriminate].
    intros [= <- <- <-].
    rewrite !length_app, Hq1, Hpi1. simpl.
    split; [lia|]. split; [lia|]. split.
    + rewrite map_app, time_steps_app, Hsteps. simpl.
      destruct (draws T) as [rf rg]. simpl in Hstep.
      rewrite Hstep. reflexivity.
    + intros t Ht. destruct (Nat.eq_dec t T) as [-> | Hne].
      * exists st1. split; [exact Hsteps|].
        rewrite !nth_error_app2 by lia.
        rewrite Hq1, Hpi1, Nat.sub_diag. auto.
      * destruct (Hrec t ltac:(lia)) as (st_t & H1 & H2 & H3).
        exists st_t. split; [exact H1|].
        rewrite !nth_error_app1 by lia. auto.
Qed.

(** X17. When [iterate(T)] returns, both traces have [T] entries, entry
    [t] of each is the accuracy of the state reached after [t] steps (the
    state before the step of time [t]: entry 0 is the state [iterate] was
    called on, and the state it leaves is not recorded), and the instance
    is left where [T] calls of [time_step] take it. *)
Theorem iterate_records_before_each_step (st st' : t) (T : nat)
    (draws : nat -> nat * (nat -> nat)) (q pi : list xfloat) :
  iterate st T draws = Ok (st', (q, pi)) ->
  length q = T /\ length pi = T /\
  time_steps st (map draws (range 0 T)) = Ok st' /\
  (forall t, (t < T)%nat ->
     exists st_t,
       time_steps st (map draws (range 0 t)) = Ok st_t /\
       nth_error q t = Some (compute_q st_t) /\
       nth_error pi t = Some (compute_pi st_t)).
Proof.
  unfold iterate, range. rewrite Nat.sub_0_r. intros H.
  destruct (iterate_loop_records _ _ _ _ _ _ H) as (H1 & H2 & H3 & H4).
  repeat split; auto.
  intros t Ht. rewrite Nat.sub_0_r. now apply H4.
Qed.

(** X18. From a reachable state of an instance with a follower (valid
    parameters, [z < 1]), [iterate(T)] returns for every [T], and every
    entry of both traces is a number of [0,1]. *)
Theorem iterate_returns_accuracies (N0 : nat) (z p0 : Q) (m0 : nat)
    (st : t) (T : nat) (draws : nat -> nat * (nat -> nat)) :
  valid_parameters N0 z p0 m0 -> z < 1 ->
  reachable N0 z p0 m0 st ->
  exists st' q pi,
    iterate st T draws = Ok (st', (q, pi)) /\
    reachable N0 z p0 m0 st' /\
    Forall in_unit_interval q /\ Forall in_unit_interval pi.
Proof.
  intros Hvalid Hz Hreach. unfold iterate, range. rewrite Nat.sub_0_r.
  induction T as [|T IH].
  - exists st, [], []. simpl. repeat split; auto.
  - destruct IH as (st1 & q1 & pi1 & Hloop & Hreach1 & Hq1 & Hpi1).
    destruct (reachable_step_and_accuracies _ _ _ _ _ Hvalid Hz Hreach1)
      as (Hq & Hpi & Hstep).
    destruct (Hstep (fst (draws T)) (snd (draws T))) as [st2 Hst2].
    exists st2, (q1 ++ [compute_q st1]), (pi1 ++ [compute_pi st1]).
    rewrite seq_S, iterate_loop_app, Hloop. simpl. rewrite Hst2. simpl.
    split; [reflexivity|]. split; [eapply reach_step; eauto|].
    split; apply Forall_app; auto.
Qed.

End MarsiliCurty_iterate.

Lemma iterate_records_before_each_step_witness :
  length [Fin (inject_Z 0 / inject_Z 2); Fin (inject_Z 1 / inject_Z 2)]
  = 2%nat /\
  length [Fin (inject_Z 1 / inject_Z 3); Fin (inject_Z 2 / inject_Z 3)]
  = 2%nat /\
  time_steps mc_three
    (map (fun t => (t, fun _ : nat => 0%nat)) (range 0 2))
  = Ok (MarsiliCurty.with_S mc_three [1; 1; 1]%Z) /\
  (forall t, (t < 2)%nat ->
     exists st_t,
       time_steps mc_three
         (map (fun t => (t, fun _ : nat => 0%nat)) (range 0 t)) = Ok st_t /\
       nth_error
         [Fin (inject_Z 0 / inject_Z 2); Fin (inject_Z 1 / inject_Z 2)] t
       = Some (MarsiliCurty.compute_q st_t) /\
       nth_error
         [Fin (inject_Z 1 / inject_Z 3); Fin (inject_Z 2 / inject_Z 3)] t
       = Some (MarsiliCurty.compute_pi st_t)).
Proof.
  apply (iterate_records_before_each_step mc_three
           (MarsiliCurty.with_S mc_three [1; 1; 1]%Z) 2
           (fun t => (t, fun _ : nat => 0%nat))).
  reflexivity.
Defined.

Lemma iterate_returns_accuracies_witness :
  exists st' q pi,
    MarsiliCurty.iterate mc_three 2 (fun t => (t, fun _ : nat => 0%nat))
    = Ok (st', (q, pi)) /\
    MarsiliCurty.reachable 3 (1 # 3) (1 # 2) 3 st' /\
    Forall in_unit_interval q /\ Forall in_unit_interval pi.
Proof.
  apply (iterate_returns_accuracies 3 (1 # 3) (1 # 2) 3 mc_three).
  - unfold valid_parameters, Qle, Qlt. simpl. lia.
  - unfold Qlt. simpl. lia.
  - exact mc_three_constructed.
Defined.

(** * Further properties of the self-consistency map and fixed_point *)

Lemma at_least_rec_zero (m : nat) (x : Q) : at_least_rec m 0 x == 1.
Proof.
  induction m as [|m IH]; simpl; [reflexivity|]. rewrite IH. ring.
Qed.

Lemma at_least_rec_beyond (m : nat) (x : Q) :
  forall k, (m < k)%nat -> at_least_rec m k x == 0.
Proof.
  induction m as [|m IH]; intros [|k] Hk; try lia; simpl.
  - reflexivity.
  - rewrite !IH by lia. ring.
Qed.

Lemma at_least_rec_nonneg (m : nat) (x : Q) :
  0 <= x -> x <= 1 -> forall k, 0 <= at_least_rec m k x.
Proof.
  intros H0 H1. induction m as [|m IH]; intros [|k]; simpl; try lra.
  - pose proof (IH 0%nat). nra.
  - pose proof (IH k). pose proof (IH (S k)). nra.
Qed.

Lemma at_least_rec_le_one (m : nat) (x : Q) :
  0 <= x -> x <= 1 -> forall k, at_least_rec m k x <= 1.
Proof.
  intros H0 H1 k. rewrite <- (at_least_rec_zero m x).
  induction k as [|k IH]; [lra|].
  pose proof (at_least_rec_antitone m x H0 H1 k). lra.
Qed.

(** At [x = 0] no draw is positive, at [x = 1] all of them are. *)
Lemma at_least_rec_at_zero (m : nat) :
  forall k, (1 <= k)%nat -> at_least_rec m k 0 == 0.
Proof.
  induction m as [|m IH]; intros [|k] Hk; try lia; simpl.
  - reflexivity.
  - rewrite (IH (S k)) by lia. ring.
Qed.

Lemma at_least_rec_at_one (m : nat) :
  forall k, (k <= m)%nat -> at_least_rec m k 1 == 1.
Proof.
  induction m as [|m IH]; intros [|k] Hk; try lia; simpl.
  - reflexivity.
  - rewrite at_least_rec_zero. ring.
  - rewrite (IH k) by lia. ring.
Qed.

(** Exchanging success and failure: at least [k] positive draws under
    [1 - x] are at most [m - k] positive draws under [x]. *)
Lemma at_least_rec_mirror (m : nat) (x : Q) :
  forall k, (k <= m + 1)%nat ->
            at_least_rec m k (1 - x) == 1 - at_least_rec m (m + 1 - k) x.
Proof.
  induction m as [|m IH]; intros k Hk.
  - destruct k as [|[|k]]; try lia; simpl; ring.
  - destruct k as [|k].
    + rewrite at_least_rec_zero, at_least_rec_beyond by lia. ring.
    + change (at_least_rec (S m) (S k) (1 - x))
        with ((1 - x) * at_least_rec m k (1 - x)
              + (1 - (1 - x)) * at_least_rec m (S k) (1 - x)).
      rewrite (IH k) by lia.
      destruct (Nat.le_gt_cases k m) as [Hle | Hgt].
      * rewrite (IH (S k)) by lia.
        replace (S m + 1 - S k)%nat with (S (m - k)) by lia.
        replace (m + 1 - S k)%nat with (m - k)%nat by lia.
        replace (m + 1 - k)%nat with (S (m - k)) by lia.
        simpl at_least_rec. ring.
      * assert (k = S m) by lia. subst k.
        rewrite (at_least_rec_beyond m (1 - x) (S (S m))) by lia.
        replace (S m + 1 - S (S m))%nat with 0%nat by lia.
        replace (m + 1 - S m)%nat with 0%nat by lia.
        rewrite !at_least_rec_zero. ring.
Qed.

Lemma F_z_rec (z p : Q) (m : nat) (q : Q) :
  F_z z p m q == at_least_rec m (ceil_half m) (z * p + (1 - z) * q).
Proof. rewrite F_z_is_tail. apply binomial_tail_rec. Qed.

Lemma F_z_compat (z p : Q) (m : nat) (q q' : Q) :
  q == q' -> F_z z p m q == F_z z p m q'.
Proof.
  intros Hq. rewrite !F_z_rec. apply at_least_rec_compat.
  rewrite Hq. reflexivity.
Qed.

Lemma F_z_unit (z p : Q) (m : nat) (q : Q) :
  0 <= z <= 1 -> 0 <= p <= 1 -> 0 <= q <= 1 ->
  0 <= F_z z p m q <= 1.
Proof.
  intros [Hz0 Hz1] [Hp0 Hp1] [Hq0 Hq1]. rewrite F_z_rec.
  split; [apply at_least_rec_nonneg | apply at_least_rec_le_one]; nra.
Qed.

Lemma F_z_mono (z p : Q) (m : nat) (q1 q2 : Q) :
  0 <= z <= 1 -> 0 <= p <= 1 ->
  0 <= q1 -> q1 <= q2 -> q2 <= 1 ->
  F_z z p m q1 <= F_z z p m q2.
Proof.
  intros [Hz0 Hz1] [Hp0 Hp1] H0 H12 H1. rewrite !F_z_rec.
  apply at_least_rec_monotone; nra.
Qed.

(** X19. [F_z] maps [0,1] into [0,1]. *)
Theorem F_z_maps_unit_interval (z p : Q) (m : nat) (q : Q) :
  0 <= z <= 1 -> 0 <= p <= 1 -> 0 <= q <= 1 ->
  0 <= F_z z p m q <= 1.
Proof. apply F_z_unit. Qed.

Lemma F_z_maps_unit_interval_witness :
  0 <= F_z (3 # 10) (52 # 100) 3 (1 # 2) <= 1.
Proof.
  apply (F_z_maps_unit_interval (3 # 10) (52 # 100) 3 (1 # 2));
    unfold Qle; simpl; lia.
Defined.

(** The two sequences of the loop of [fixed_point]: one climbs from 0,
    the other descends from 1, and the first stays below the second. *)
Lemma iterates_ordered (z p : Q) (m : nat) :
  0 <= z <= 1 -> 0 <= p <= 1 ->
  forall n,
    0 <= Nat.iter n (F_z z p m) 0 /\
    Nat.iter n (F_z z p m) 0 <= Nat.iter (S n) (F_z z p m) 0 /\
    Nat.iter (S n) (F_z z p m) 0 <= Nat.iter (S n) (F_z z p m) 1 /\
    Nat.iter (S n) (F_z z p m) 1 <= Nat.iter n (F_z z p m) 1 /\
    Nat.iter n (F_z z p m) 1 <= 1.
Proof.
  intros Hz Hp. induction n as [|n IH].
  - simpl.
    pose proof (F_z_unit z p m 0 Hz Hp ltac:(lra)).
    pose proof (F_z_unit z p m 1 Hz Hp ltac:(lra)).
    pose proof (F_z_mono z p m 0 1 Hz Hp ltac:(lra) ltac:(lra) ltac:(lra)).
    lra.
  - destruct IH as (H0 & Hup & Hmid & Hdown & H1).
    set (a := Nat.iter n (F_z z p m) 0) in *.
    set (b := Nat.iter n (F_z z p m) 1) in *.
    change (Nat.iter (S n) (F_z z p m) 0) with (F_z z p m a) in *.
    change (Nat.iter (S n) (F_z z p m) 1) with (F_z z p m b) in *.
    change (Nat.iter (S (S n)) (F_z z p m) 0)
      with (F_z z p m (F_z z p m a)).
    change (Nat.iter (S (S n)) (F_z z p m) 1)
      with (F_z z p m (F_z z p m b)).
    assert (Ha : 0 <= a <= 1) by lra.
    assert (Hb : 0 <= b <= 1) by lra.
    pose proof (F_z_unit z p m a Hz Hp Ha).
    pose proof (F_z_unit z p m b Hz Hp Hb).
    repeat split; try lra; apply F_z_mono; auto; lra.
Qed.

Lemma ceil_half_bounds (m : nat) :
  (1 <= m)%nat -> (1 <= ceil_half m <= m)%nat.
Proof. pose proof (ceil_half_is_ceiling m). lia. Qed.

Lemma ceil_half_odd (m : nat) :
  Nat.odd m = true -> (m + 1 - ceil_half m)%nat = ceil_half m.
Proof.
  intros Hodd. apply Nat.odd_spec in Hodd. destruct Hodd as [j Hj].
  unfold ceil_half.
  pose proof (Nat.div_mod_eq m 2). pose proof (Nat.mod_upper_bound m 2).
  lia.
Qed.

Lemma F_z_no_informed (p : Q) (m : nat) (q : Q) :
  F_z 0 p m q == at_least_rec m (ceil_half m) q.
Proof. rewrite F_z_rec. apply at_least_rec_compat. ring. Qed.

Lemma F_z_no_informed_ends (p : Q) (m : nat) :
  (1 <= m)%nat -> F_z 0 p m 0 == 0 /\ F_z 0 p m 1 == 1.
Proof.
  intros Hm. pose proof (ceil_half_bounds m Hm).
  rewrite !F_z_no_informed. split.
  - apply at_least_rec_at_zero. lia.
  - apply at_least_rec_at_one. lia.
Qed.

Section FixedPoint_branches.

Variable brentq : (Q -> Q) -> Q -> Q -> result Q.

(** X20. For [z] and [p] in [0,1], whatever the root finder does, the
    lower and upper branch [fixed_point] returns satisfy
    [0 <= q_0 <= q_1 <= 1]; and one more round of the loop moves the lower
    one up and the upper one down. *)
Theorem fixed_point_branches_ordered (z p : Q) (m n_its : nat)
    (q_0 q_1 q_mid : Q) :
  0 <= z <= 1 -> 0 <= p <= 1 ->
  fixed_point brentq z p m n_its = Ok (q_0, q_1, q_mid) ->
  (0 <= q_0 /\ q_0 <= q_1 /\ q_1 <= 1) /\
  q_0 <= fst (fixed_point_loop (F_z z p m) (S n_its) 0 1) /\
  snd (fixed_point_loop (F_z z p m) (S n_its) 0 1) <= q_1.
Proof.
  intros Hz Hp. unfold fixed_point.
  rewrite !fixed_point_loop_is_iter.
  destruct (brentq _ _ _) as [r|e]; simpl; [|discriminate].
  intros [= <- <- _].
  destruct (iterates_ordered z p m Hz Hp n_its)
    as (H0 & Hup & Hmid & Hdown & H1).
  repeat split; auto.
  destruct n_its as [|n]; [simpl; lra|].
  apply (iterates_ordered z p m Hz Hp n).
Qed.

(** X21. Without informed agents ([z = 0]) and with [m >= 1], the loop of
    [fixed_point] does not move: the lower branch is 0 and the upper branch
    is 1, whatever [n_its]. *)
Theorem fixed_point_no_informed_branches (p : Q) (m n_its : nat)
    (q_0 q_1 q_mid : Q) :
  (1 <= m)%nat ->
  fixed_point brentq 0 p m n_its = Ok (q_0, q_1, q_mid) ->
  q_0 == 0 /\ q_1 == 1.
Proof.
  intros Hm. unfold fixed_point. rewrite fixed_point_loop_is_iter.
  destruct (brentq _ _ _) as [r|e]; simpl; [|discriminate].
  intros [= <- <- _].
  destruct (F_z_no_informed_ends p m Hm) as [E0 E1].
  clear r. induction n_its as [|n [IH0 IH1]]; [split; reflexivity|].
  simpl. split.
  - rewrite (F_z_compat 0 p m _ 0 IH0). exact E0.
  - rewrite (F_z_compat 0 p m _ 1 IH1). exact E1.
Qed.

End FixedPoint_branches.

(** X22. Without informed agents and with an odd [m >= 1] the map is
    symmetric, [F_z(1 - q) = 1 - F_z(q)], and 0, 1/2 and 1 are fixed
    points of it. *)
Theorem F_z_no_informed_symmetric (p : Q) (m : nat) (q : Q) :
  Nat.odd m = true ->
  F_z 0 p m (1 - q) == 1 - F_z 0 p m q /\
  F_z 0 p m 0 == 0 /\ F_z 0 p m (1 # 2) == 1 # 2 /\ F_z 0 p m 1 == 1.
Proof.
  intros Hodd.
  assert (Hm : (1 <= m)%nat) by (destruct m; [discriminate | lia]).
  pose proof (ceil_half_bounds m Hm) as Hc.
  assert (Hsym : forall x, F_z 0 p m (1 - x) == 1 - F_z 0 p m x).
  { intros x. rewrite !F_z_no_informed.
    rewrite at_least_rec_mirror by lia.
    rewrite (ceil_half_odd m Hodd). reflexivity. }
  destruct (F_z_no_informed_ends p m Hm) as [E0 E1].
  repeat split; auto.
  pose proof (Hsym (1 # 2)) as Hhalf.
  rewrite (F_z_compat 0 p m (1 - (1 # 2)) (1 # 2)) in Hhalf
    by reflexivity.
  lra.
Qed.

Lemma fixed_point_branches_ordered_witness :
  (0 <= Nat.iter 2 (F_z (3 # 10) (52 # 100) 3) 0 /\
   Nat.iter 2 (F_z (3 # 10) (52 # 100) 3) 0
   <= Nat.iter 2 (F_z (3 # 10) (52 # 100) 3) 1 /\
   Nat.iter 2 (F_z (3 # 10) (52 # 100) 3) 1 <= 1) /\
  Nat.iter 2 (F_z (3 # 10) (52 # 100) 3) 0
  <= fst (fixed_point_loop (F_z (3 # 10) (52 # 100) 3) 3 0 1) /\
  snd (fixed_point_loop (F_z (3 # 10) (52 # 100) 3) 3 0 1)
  <= Nat.iter 2 (F_z (3 # 10) (52 # 100) 3) 1.
Proof.
  apply (fixed_point_branches_ordered
           (fun _ _ _ => Ok (1 # 2)) (3 # 10) (52 # 100) 3 2
           (Nat.iter 2 (F_z (3 # 10) (52 # 100) 3) 0)
           (Nat.iter 2 (F_z (3 # 10) (52 # 100) 3) 1)
           (1 # 2)).
  - unfold Qle. simpl. lia.
  - unfold Qle. simpl. lia.
  - unfold fixed_point. rewrite fixed_point_loop_is_iter. reflexivity.
Defined.

Lemma fixed_point_no_informed_branches_witness :
  Nat.iter 2 (F_z 0 (52 # 100) 3) 0 == 0 /\
  Nat.iter 2 (F_z 0 (52 # 100) 3) 1 == 1.
Proof.
  apply (fixed_point_no_informed_branches
           (fun _ _ _ => Ok (1 # 2)) (52 # 100) 3 2
           (Nat.iter 2 (F_z 0 (52 # 100) 3) 0)
           (Nat.iter 2 (F_z 0 (52 # 100) 3) 1)
           (1 # 2)).
  - lia.
  - unfold fixed_point. rewrite fixed_point_loop_is_iter. reflexivity.
Defined.

Lemma F_z_no_informed_symmetric_witness :
  F_z 0 (52 # 100) 3 (1 - (1 # 4)) == 1 - F_z 0 (52 # 100) 3 (1 # 4) /\
  F_z 0 (52 # 100) 3 0 == 0 /\
  F_z 0 (52 # 100) 3 (1 # 2) == 1 # 2 /\
  F_z 0 (52 # 100) 3 1 == 1.
Proof.
  apply (F_z_no_informed_symmetric (52 # 100) 3 (1 # 4)).
  reflexivity.
Defined.

(** * The hysteresis loop: lowering the field *)

Section RFIM_hysteresis.

Import RFIM.

Variable st0 : t.
Variable F' : Q.
Variable N_global : nat.
Hypothesis coupling_nonneg : 0 <= J st0.
Hypothesis two_agents : (2 <= N st0)%nat.
Hypothesis field_lowered : F' <= F st0.
Hypothesis at_rest : sweep N_global st0 = Ok (st0, 0%nat).

Lemma relaxing_down_start : relaxing_down st0 F' N_global (with_F st0 F').
Proof.
  unfold relaxing_down. cbn [S with_F with_S J F N h delta].
  split; [reflexivity|]. split; [lia|]. split; [auto|].
  intros i x Hi Hs Hp.
  assert (Hfix : flip st0 i = Ok (st0, 0%nat)).
  { apply (sweep_loop_fixed_flips (range 0 N_global) st0 0%nat at_rest).
    unfold range. apply in_seq. lia. }
  destruct (flip_valid_index _ _ _ _ Hfix) as (s & hi & Hs0 & Hh).
  rewrite Hs0 in Hs. injection Hs as ->.
  rewrite (p_value (with_F st0 F') i (-1) hi two_agents Hs0 Hh) in Hp.
  injection Hp as <-. cbn [S with_F J F N h].
  unfold flip in Hfix.
  rewrite Hs0, (p_value _ _ _ _ two_agents Hs0 Hh) in Hfix. simpl in Hfix.
  set (c := J st0 * (inject_Z (np_sum (S st0) - -1)
                     / inject_Z (Z.of_nat (N st0) - 1))) in *.
  destruct (Qsign_cases (hi + F st0 + c)) as [[Hq _] | [[Hq _] | [_ E]]];
    try lra.
  rewrite E in Hfix. discriminate.
Qed.

Lemma flip_relaxing_down (cur cur1 : t) (j r : nat) :
  (j < N_global)%nat ->
  relaxing_down st0 F' N_global cur ->
  flip cur j = Ok (cur1, r) ->
  relaxing_down st0 F' N_global cur1.
Proof.
  intros Hj (E & Hsum & Hall & Hneg) Hf.
  destruct (flip_cases _ _ _ _ Hf)
    as [[-> _] | (sj & x & sg & Hs & Hp & Hsg & Hprod & E1 & Er)].
  { repeat split; auto. }
  subst r.
  assert (HN : (2 <= N cur)%nat) by (rewrite E; exact two_agents).
  destruct (flip_valid_index _ _ _ _ Hf) as (s' & hj & Hs' & Hh).
  rewrite Hs in Hs'. injection Hs' as <-.
  pose proof Hp as Hp0. rewrite (p_value _ _ _ _ HN Hs Hh) in Hp0.
  injection Hp0 as Hx.
  assert (Hdown : sj = 1%Z /\ sg = (-1)%Z).
  { destruct (product_minus_one _ _ Hprod) as [[-> ->] | [-> ->]]; auto.
    exfalso. subst x. simpl in Hsg. injection Hsg as Hsg.
    apply Qsign_pos in Hsg.
    pose proof (Hneg j _ Hj Hs (p_value _ _ _ _ HN Hs Hh)). lra. }
  destruct Hdown as [-> ->].
  change (- (1))%Z with (-1)%Z in *.
  assert (Hlt : (j < length (S cur))%nat)
    by (apply nth_error_Some; congruence).
  unfold relaxing_down. rewrite E1. cbn [S with_S].
  split; [rewrite E at 1; reflexivity|].
  split; [rewrite (set_item_sum _ _ _ _ Hs); lia|].
  split.
  - intros i. destruct (Nat.eq_dec i j) as [-> | Hij].
    + right. split; [|now apply set_item_same].
      destruct (Hall j) as [H0 | [H0 H1]]; congruence.
    + rewrite set_item_other by congruence. apply Hall.
  - intros i y Hi Hsi Hpi.
    destruct (Nat.eq_dec i j) as [-> | Hij].
    + rewrite <- E1 in Hpi.
      destruct (flip_settles_agent _ _ _ Hf) as [Hsame _].
      rewrite Hsame, Hp, <- Hx in Hpi. injection Hpi as <-.
      rewrite <- Hx in Hsg. simpl in Hsg. injection Hsg as Hsg.
      apply Qsign_neg in Hsg. lra.
    + rewrite set_item_other in Hsi by congruence.
      assert (Hhi : exists hi, nth_error (h cur) i = Some hi).
      { unfold p in Hpi. cbv zeta in Hpi. cbn [S with_S h] in Hpi.
        destruct (nth_error (set_item (S cur) j (-1)) i); [|discriminate].
        destruct (nth_error (h cur) i) as [hi|]; [eauto | discriminate]. }
      destruct Hhi as [hi Hhi].
      pose proof (Hneg i _ Hi Hsi (p_value _ _ _ _ HN Hsi Hhi)) as Hold.
      assert (Hsi1 : nth_error
                       (S (with_S cur (set_item (S cur) j (-1)))) i
                     = Some (-1)%Z).
      { cbn [S with_S]. rewrite set_item_other by congruence. exact Hsi. }
      rewrite (p_value (with_S cur (set_item (S cur) j (-1))) i (-1) hi
                 HN Hsi1 Hhi) in Hpi.
      injection Hpi as <-. cbn [S with_S J F N].
      rewrite (set_item_sum _ _ _ _ Hs).
      assert (Hle : J cur * (inject_Z (np_sum (S cur) - 1 + -1 - -1)
                             / inject_Z (Z.of_nat (N cur) - 1))
                    <= J cur * (inject_Z (np_sum (S cur) - -1)
                                / inject_Z (Z.of_nat (N cur) - 1))).
      { rewrite !(Qmult_comm (J cur)).
        apply Qmult_le_compat_r;
          [|rewrite E; exact coupling_nonneg].
        apply Qdiv_le_mono; lia. }
      lra.
Qed.

Lemma sweep_loop_relaxing_down (idx : list nat) :
  Forall (fun i => (i < N_global)%nat) idx ->
  forall (cur : t) (s : nat) (st' : t) (s' : nat),
    relaxing_down st0 F' N_global cur ->
    sweep_loop idx cur s = Ok (st', s') ->
    relaxing_down st0 F' N_global st'.
Proof.
  induction 1 as [|j idx Hj Hidx IH]; intros cur s st' s' Hinv; simpl.
  - intros [= <- _]. exact Hinv.
  - destruct (flip cur j) as [[cur1 r]|e] eqn:Hf; simpl; [|discriminate].
    apply IH. eapply flip_relaxing_down; eauto.
Qed.

Lemma equilibrate_relaxing_down (fuel : nat) :
  forall (cur st' : t),
    relaxing_down st0 F' N_global cur ->
    equilibrate N_global fuel cur = Some (Ok st') ->
    relaxing_down st0 F' N_global st'.
Proof.
  induction fuel as [|fuel IH]; intros cur st' Hinv; simpl;
    [discriminate|].
  destruct (sweep N_global cur) as [[cur1 flips]|e] eqn:Hs; [|discriminate].
  assert (Hinv1 : relaxing_down st0 F' N_global cur1).
  { assert (Hidx : Forall (fun i => (i < N_global)%nat) (range 0 N_global)).
    { apply Forall_forall. intros i Hi. unfold range in Hi.
      apply in_seq in Hi. lia. }
    apply (sweep_loop_relaxing_down _ Hidx cur 0%nat cur1 flips Hinv Hs). }
  destruct flips; simpl; [intros [= <-]; exact Hinv1 | now apply IH].
Qed.

(** X23. Down the hysteresis loop opinions only go down. Take an instance
    with [J >= 0] and at least two agents on which a sweep flips nobody,
    lower the field and call [equilibrate], as the hysteresis cell does on
    its downward path: in the state returned every agent is as it was or
    went from +1 to -1, and the sum of the opinions (so the mean opinion
    [m()]) has not grown. *)
Theorem lowering_field_lowers_opinions (fuel : nat) (st' : t) :
  equilibrate N_global fuel (with_F st0 F') = Some (Ok st') ->
  (np_sum (S st') <= np_sum (S st0))%Z /\
  (forall i, nth_error (S st') i = nth_error (S st0) i \/
             (nth_error (S st0) i = Some 1%Z /\
              nth_error (S st') i = Some (-1)%Z)).
Proof.
  intros He.
  destruct (equilibrate_relaxing_down _ _ _ relaxing_down_start He)
    as (_ & Hsum & Hall & _).
  split; assumption.
Qed.

End RFIM_hysteresis.

Lemma lowering_field_lowers_opinions_witness :
  (np_sum [-1; -1; -1]%Z <= np_sum (RFIM.S rfim_rest))%Z /\
  (forall i, nth_error [-1; -1; -1]%Z i = nth_error (RFIM.S rfim_rest) i \/
             (nth_error (RFIM.S rfim_rest) i = Some 1%Z /\
              nth_error [-1; -1; -1]%Z i = Some (-1)%Z)).
Proof.
  apply (lowering_field_lowers_opinions rfim_rest (- (2)) 3)
    with (fuel := 3%nat)
         (st' := RFIM.with_S (RFIM.with_F rfim_rest (- (2)))
                   [-1; -1; -1]%Z).
  - unfold Qle. simpl. lia.
  - simpl. lia.
  - unfold Qle. simpl. lia.
  - reflexivity.
  - reflexivity.
Defined.
